(** * kyc_simplifier: the rule engine and the JSON adapter

    A shallow embedding of [simplifier.py] (class [EmailSimplifier]) and of
    [json_convert.py] (class [JsonSimplifier]), with the properties of the
    specification proved or refuted over it.

    Conventions of the embedding.
    - A Python [str] is a [list ascii]: the code points 0..255, classified
      the way CPython classifies them ([str.isspace], the [\s], [\w] and
      [\b] of a [str] pattern, case folding under [re.IGNORECASE]).
    - [re] is the module of CPython 3.7 and later (an empty match is
      replaced wherever it occurs; an unknown escape in a replacement is
      an error).  For the name in [\g<name>] the model follows CPython
      3.12 and later; see [parse_template].
    - A function that can raise returns a [result].
    - The four regular expressions of the source are values of [regex], a
      list of atoms matched left to right; [re_sub] and [re_split] are the
      scanning loops of [re.sub] and [re.split]. *)

From Stdlib Require Import List Ascii String Arith Bool Lia ZArith.
Import ListNotations.
Local Open Scope char_scope.
Local Open Scope list_scope.
Local Open Scope nat_scope.

(** ** Strings *)

Definition str : Type := list ascii.

(** [chars "abc"] is the Python literal ["abc"]. *)
Definition chars (lit : string) : str := list_ascii_of_string lit.
Arguments chars lit%_string.

Definition code (c : ascii) : nat := nat_of_ascii c.

Definition between (lo hi n : nat) : bool := (lo <=? n) && (n <=? hi).

(** [str.isspace] on one character, which is also [\s] of a [str] pattern:
    TAB..CR, FS..US, SPACE, NEL and NBSP. *)
Definition isspace (c : ascii) : bool :=
  let n := code c in
  between 9 13 n || between 28 32 n || (n =? 133) || (n =? 160).

(** [\w] of a [str] pattern: alphanumeric or underscore.  Below 256 the
    alphanumerics are the ASCII letters and digits, the superscript digits
    and vulgar fractions, the ordinal indicators, the micro sign and the
    Latin-1 letters. *)
Definition isword (c : ascii) : bool :=
  let n := code c in
  between 48 57 n || between 65 90 n || (n =? 95) || between 97 122 n
  || (n =? 170) || between 178 179 n || (n =? 181) || between 185 186 n
  || between 188 190 n || between 192 214 n || between 216 246 n
  || between 248 255 n.

(** Lower-casing as [re.IGNORECASE] applies it: A..Z and the Latin-1
    capitals (all of 192..222 but the multiplication sign 215). *)
Definition lower (c : ascii) : ascii :=
  let n := code c in
  if between 65 90 n || (between 192 222 n && negb (n =? 215))
  then ascii_of_nat (n + 32) else c.

Definition ci_eqb (a b : ascii) : bool := Ascii.eqb (lower a) (lower b).

(** ** Exceptions *)

Inductive exn : Type :=
| SubError   (* [re.error], or [IndexError] for an unknown group name,
                raised by [re.sub] while it compiles the replacement; the
                model does not tell the two apart *)
| TypeError.

Inductive result (A : Type) : Type :=
| Ok (a : A)
| Raise (e : exn).
Arguments Ok {A} a.
Arguments Raise {A} e.

Definition bind {A B : Type} (r : result A) (k : A -> result B) : result B :=
  match r with
  | Ok a => k a
  | Raise e => Raise e
  end.

Notation "x <- r ;; k" := (bind r (fun x => k))
  (at level 61, r at next level, right associativity).

(** A list comprehension whose element expression can raise: elements are
    evaluated left to right and the first exception aborts the rest. *)
Section MapM.
Context {A B : Type} (f : A -> result B).

Fixpoint mapM (l : list A) : result (list B) :=
  match l with
  | [] => Ok []
  | a :: l' => b <- f a ;; bs <- mapM l' ;; Ok (b :: bs)
  end.

End MapM.

(** ** Regular expressions of the source *)

Inductive atom : Type :=
| LitI (c : ascii)            (* a literal character under [re.IGNORECASE] *)
| WordBoundary                (* [\b] *)
| Spaces                      (* [\s+] *)
| After (cls : ascii -> bool) (* [(?<=[...])], a one-character lookbehind *).

Definition regex : Type := list atom.

Definition wordp (o : option ascii) : bool :=
  match o with
  | Some c => isword c
  | None => false
  end.

(** [\b]: exactly one of the two neighbouring positions holds a word
    character; the ends of the text count as non-word. *)
Definition at_boundary (prev : option ascii) (s : str) : bool :=
  xorb (wordp prev) (wordp (hd_error s)).

Fixpoint span (f : ascii -> bool) (s : str) : nat :=
  match s with
  | c :: s' => if f c then S (span f s') else 0
  | [] => 0
  end.

(** [match_here p prev s]: the length of the match of [p] that starts at the
    current position, where [prev] is the character before it and [s] the
    text from it on.  [Spaces] takes the whole run (greedy); in the source
    it is always the last atom, so nothing has to be given back. *)
Fixpoint match_here (p : regex) (prev : option ascii) (s : str) : option nat :=
  match p with
  | [] => Some 0
  | LitI c :: p' =>
      match s with
      | x :: s' =>
          if ci_eqb x c then option_map S (match_here p' (Some x) s') else None
      | [] => None
      end
  | WordBoundary :: p' =>
      if at_boundary prev s then match_here p' prev s else None
  | Spaces :: p' =>
      match span isspace s with
      | 0 => None
      | S k =>
          option_map (Nat.add (S k))
            (match_here p' (nth_error s k) (skipn (S k) s))
      end
  | After cls :: p' =>
      match prev with
      | Some x => if cls x then match_here p' prev s else None
      | None => None
      end
  end.

(** [re.escape(raw)] compiled: every character of [raw] is a literal. *)
Definition escaped (raw : str) : regex := map LitI raw.

(** [rf"\b{re.escape(raw)}\b"] *)
Definition word_re (raw : str) : regex :=
  WordBoundary :: escaped raw ++ [WordBoundary].

(** [r"\s+"] *)
Definition ws_re : regex := [Spaces].

Definition is_terminator (c : ascii) : bool :=
  Ascii.eqb c "." || Ascii.eqb c "!" || Ascii.eqb c "?".

(** [r"(?<=[.!?])\s+"] *)
Definition sentence_re : regex := [After is_terminator; Spaces].

(** ** Replacement templates

    [re.sub] reads a replacement that holds a backslash as a template
    ([re._parser.parse_template]).  The patterns of this program have no
    groups, so the only group reference that can be valid is [\g<0>], the
    whole match.  A group name is valid when it is a non-empty string of
    ASCII zeros: this is CPython 3.12 and later.  CPython 3.7 to 3.11 read
    the name with [int] and so also take, with a deprecation warning,
    other spellings of zero ([+0], [-0], a zero within spaces, [0_0]); on
    those versions the model raises for such a name where the code
    returns.  A template that the model compiles is compiled alike by all
    these versions. *)

Inductive titem : Type :=
| TLit (c : ascii)
| TMatch (* the whole match, [\g<0>] *).

Definition template : Type := list titem.

Definition chr (n : nat) : ascii := ascii_of_nat n.

(** The table [ESCAPES] of the template parser. *)
Definition escape_char (c : ascii) : option ascii :=
  if Ascii.eqb c "a" then Some (chr 7)
  else if Ascii.eqb c "b" then Some (chr 8)
  else if Ascii.eqb c "f" then Some (chr 12)
  else if Ascii.eqb c "n" then Some (chr 10)
  else if Ascii.eqb c "r" then Some (chr 13)
  else if Ascii.eqb c "t" then Some (chr 9)
  else if Ascii.eqb c "v" then Some (chr 11)
  else if Ascii.eqb c "\" then Some "\"
  else None.

Definition isdigit (c : ascii) : bool := between 48 57 (code c).
Definition isoctdigit (c : ascii) : bool := between 48 55 (code c).
Definition digit_val (c : ascii) : nat := code c - 48.
Definition is_ascii_letter (c : ascii) : bool :=
  between 65 90 (code c) || between 97 122 (code c).

Fixpoint parse_template (s : str) : result template :=
  match s with
  | [] => Ok []
  | c0 :: r0 =>
    if negb (Ascii.eqb c0 "\") then t <- parse_template r0 ;; Ok (TLit c0 :: t)
    else
    match r0 with
    | [] => Raise SubError (* bad escape (end of pattern) *)
    | c :: r1 =>
      if Ascii.eqb c "g" then
        match r1 with
        | lt :: r2 =>
          if Ascii.eqb lt "<" then
            (fix group_name (seen : bool) (r : str) : result template :=
               match r with
               | [] => Raise SubError (* missing >, unterminated name *)
               | d :: r' =>
                 if Ascii.eqb d ">" then
                   if seen then t <- parse_template r' ;; Ok (TMatch :: t)
                   else Raise SubError (* missing group name *)
                 else if Ascii.eqb d "0" then group_name true r'
                 else Raise SubError (* unknown or invalid group *)
               end) false r2
          else Raise SubError (* missing < *)
        | [] => Raise SubError
        end
      else if Ascii.eqb c "0" then
        match r1 with
        | d1 :: r2 =>
          if isoctdigit d1 then
            match r2 with
            | d2 :: r3 =>
              if isoctdigit d2 then
                t <- parse_template r3 ;;
                Ok (TLit (chr (8 * digit_val d1 + digit_val d2)) :: t)
              else t <- parse_template r2 ;; Ok (TLit (chr (digit_val d1)) :: t)
            | [] => Ok [TLit (chr (digit_val d1))]
            end
          else t <- parse_template r1 ;; Ok (TLit (chr 0) :: t)
        | [] => Ok [TLit (chr 0)]
        end
      else if isdigit c then
        match r1 with
        | d1 :: d2 :: r3 =>
          if isoctdigit c && isoctdigit d1 && isoctdigit d2 then
            let v := 64 * digit_val c + 8 * digit_val d1 + digit_val d2 in
            if 255 <? v then Raise SubError (* outside of range 0-0o377 *)
            else t <- parse_template r3 ;; Ok (TLit (chr v) :: t)
          else Raise SubError (* invalid group reference *)
        | _ => Raise SubError (* invalid group reference *)
        end
      else
        match escape_char c with
        | Some e => t <- parse_template r1 ;; Ok (TLit e :: t)
        | None =>
          if is_ascii_letter c then Raise SubError (* bad escape *)
          else t <- parse_template r1 ;; Ok (TLit "\" :: TLit c :: t)
        end
    end
  end.

(** [expand_template]: the text that replaces the match [m]. *)
Definition expand (t : template) (m : str) : str :=
  flat_map (fun it => match it with TLit c => [c] | TMatch => m end) t.

(** ** [re.sub] and [re.split]

    The scan goes through the text once.  [skip] counts the characters of
    the current match that are still to be passed over; [prev] is the
    character before the current position.  At a position where the pattern
    matches the empty string the replacement is inserted and the scan moves
    on by one character, as [re.sub] does since Python 3.7. *)

Fixpoint sub_scan (p : regex) (t : template) (skip : nat)
    (prev : option ascii) (s : str) : str :=
  match skip with
  | S k =>
      match s with
      | c :: s' => sub_scan p t k (Some c) s'
      | [] => []
      end
  | 0 =>
      match match_here p prev s with
      | Some n =>
          expand t (firstn n s) ++
          match s with
          | c :: s' =>
              match n with
              | 0 => c :: sub_scan p t 0 (Some c) s'
              | S k => sub_scan p t k (Some c) s'
              end
          | [] => []
          end
      | None =>
          match s with
          | c :: s' => c :: sub_scan p t 0 (Some c) s'
          | [] => []
          end
      end
  end.

(** [re.sub(p, repl, text)]: the replacement is compiled first, so a bad
    template raises whether or not the pattern occurs in the text. *)
Definition re_sub (p : regex) (repl : str) (text : str) : result str :=
  t <- parse_template repl ;; Ok (sub_scan p t 0 None text).

Definition push (c : ascii) (pieces : list str) : list str :=
  match pieces with
  | x :: xs => (c :: x) :: xs
  | [] => [[c]]
  end.

Fixpoint split_scan (p : regex) (skip : nat) (prev : option ascii)
    (s : str) : list str :=
  match skip with
  | S k =>
      match s with
      | c :: s' => split_scan p k (Some c) s'
      | [] => [[]]
      end
  | 0 =>
      match match_here p prev s with
      | Some n =>
          [] ::
          match s with
          | c :: s' =>
              match n with
              | 0 => push c (split_scan p 0 (Some c) s')
              | S k => split_scan p k (Some c) s'
              end
          | [] => [[]]
          end
      | None =>
          match s with
          | c :: s' => push c (split_scan p 0 (Some c) s')
          | [] => [[]]
          end
      end
  end.

(** [re.split(p, text)] *)
Definition re_split (p : regex) (text : str) : list str :=
  split_scan p 0 None text.

(** ** String methods used by the engine *)

Definition is_empty (s : str) : bool :=
  match s with
  | [] => true
  | _ :: _ => false
  end.

Fixpoint lstrip (s : str) : str :=
  match s with
  | c :: s' => if isspace c then lstrip s' else s
  | [] => []
  end.

Definition rstrip (s : str) : str := rev (lstrip (rev s)).

(** [s.strip()] *)
Definition strip (s : str) : str := rstrip (lstrip s).

(** [s.split()]: the maximal runs of non-whitespace characters. *)
Fixpoint str_split (s : str) : list str :=
  match s with
  | [] => []
  | c :: s' =>
      if isspace c then str_split s'
      else
        match s' with
        | d :: _ => if isspace d then [c] :: str_split s' else push c (str_split s')
        | [] => [[c]]
        end
  end.

(** [s.split(sep)] for a one-character separator. *)
Fixpoint split_on (sep : ascii) (s : str) : list str :=
  match s with
  | [] => [[]]
  | c :: s' =>
      if Ascii.eqb c sep then [] :: split_on sep s' else push c (split_on sep s')
  end.

(** [sep.join(l)] *)
Fixpoint join (sep : str) (l : list str) : str :=
  match l with
  | [] => []
  | x :: l' =>
      match l' with
      | [] => x
      | _ :: _ => x ++ sep ++ join sep l'
      end
  end.

(** [c in s] *)
Definition contains (c : ascii) (s : str) : bool := existsb (Ascii.eqb c) s.

(** [s.endswith(('.', '?', '!'))] *)
Definition ends_with_terminator (s : str) : bool :=
  match rev s with
  | c :: _ => is_terminator c
  | [] => false
  end.

(** ** [EmailSimplifier]

    The rule tables are the dictionaries and the list loaded from the
    configuration, in iteration order. *)

Record pattern : Type := { search : str; replace : str }.

Record EmailSimplifier : Type := {
  jargon_map : list (str * str);
  tone_map : list (str * str);
  patterns : list pattern;
  kyc_documents : list (str * str);
  sentence_length_limit : Z
}.

(** [for x in l: text = body(x, text)] *)
Fixpoint for_each {A : Type} (l : list A) (body : A -> str -> result str)
    (text : str) : result str :=
  match l with
  | [] => Ok text
  | x :: l' => text' <- body x text ;; for_each l' body text'
  end.

Definition _apply_word_map (text : str) (mapping : list (str * str)) : result str :=
  for_each mapping
    (fun '(raw, simple) text => re_sub (word_re raw) simple text) text.

Definition _apply_patterns (text : str) (ps : list pattern) : result str :=
  for_each ps
    (fun p text => re_sub (escaped (search p)) (replace p) text) text.

Definition _apply_kyc_doc_rules (self : EmailSimplifier) (text : str) : result str :=
  for_each (kyc_documents self)
    (fun '(raw, friendly) text => re_sub (word_re raw) friendly text) text.

(** One turn of the loop of [_rewrite_sentences]: [cleaned] before and after
    the candidate [s0]. *)
Definition rewrite_sentence (limit : Z) (cleaned : list str) (s0 : str) : list str :=
  let s := strip s0 in
  if is_empty s then cleaned
  else if (limit <? Z.of_nat (List.length (str_split s)))%Z && contains "," s then
    let parts := map strip (split_on "," s) in
    let cleaned := cleaned ++ [hd [] parts ++ chars "."] in
    if 1 <? List.length parts
    then cleaned ++ [join (chars ", ") (tl parts) ++ chars "."]
    else cleaned
  else cleaned ++ [if ends_with_terminator s then s else s ++ chars "."].

Definition _rewrite_sentences (self : EmailSimplifier) (text : str) : str :=
  let sentences := re_split sentence_re text in
  join (chars " ")
    (fold_left (rewrite_sentence (sentence_length_limit self)) sentences []).

(** [re.sub(r"\s+", " ", text).strip()] *)
Definition normalize_ws (text : str) : result str :=
  t <- re_sub ws_re (chars " ") text ;; Ok (strip t).

Definition simplify_text (self : EmailSimplifier) (text : str) : result str :=
  if is_empty text then Ok text
  else
    text <- normalize_ws text ;;
    text <- _apply_word_map text (jargon_map self) ;;
    text <- _apply_word_map text (tone_map self) ;;
    text <- _apply_patterns text (patterns self) ;;
    text <- _apply_kyc_doc_rules self text ;;
    normalize_ws (_rewrite_sentences self text).

(** ** [JsonSimplifier]

    A payload is what [json.load] returns.  An object keeps its fields in
    insertion order; a float is carried by its bits and never inspected.
    The adapter updates an entry in place and returns it; the embedding
    follows the returned document. *)

#[local] Set Warnings "-register-all".

Inductive json : Type :=
| JNull
| JBool (b : bool)
| JInt (n : Z)
| JFloat (bits : Z)
| JStr (s : str)
| JList (items : list json)
| JDict (fields : list (str * json)).

Definition dict : Type := list (str * json).

Definition str_eqb (a b : str) : bool :=
  if list_eq_dec ascii_dec a b then true else false.

(** [k in d] and [d[k]] *)
Fixpoint dict_get (k : str) (d : dict) : option json :=
  match d with
  | [] => None
  | (k', v) :: d' => if str_eqb k k' then Some v else dict_get k d'
  end.

(** [d[k] = v]: an existing key keeps its place, a new key goes last. *)
Fixpoint dict_set (k : str) (v : json) (d : dict) : dict :=
  match d with
  | [] => [(k, v)]
  | (k', v') :: d' =>
      if str_eqb k k' then (k', v) :: d' else (k', v') :: dict_set k v d'
  end.

Record JsonSimplifier : Type := {
  simplifier : EmailSimplifier;
  text_field : str;
  output_field : str
}.

Definition _is_container (value : json) : bool :=
  match value with
  | JList _ | JDict _ => true
  | _ => false
  end.

Fixpoint _simplify_entry (self : JsonSimplifier) (entry : json) : result json :=
  match entry with
  | JDict fields =>
      match dict_get (text_field self) fields with
      | Some original =>
          match original with
          | JStr text =>
              t <- simplify_text (simplifier self) text ;;
              Ok (JDict (dict_set (output_field self) (JStr t) fields))
          | _ => Raise TypeError
          end
      | None => Ok entry
      end
  | JList items =>
      l <- mapM (_simplify_entry self) items ;; Ok (JList l)
  | _ => Ok entry
  end.

Fixpoint simplify_payload (self : JsonSimplifier) (payload : json) : result json :=
  match payload with
  | JList items =>
      l <- mapM (_simplify_entry self) items ;; Ok (JList l)
  | JDict fields =>
      d <- mapM (fun kv : str * json =>
                   let (k, v) := kv in
                   if _is_container v
                   then v' <- simplify_payload self v ;; Ok (k, v')
                   else Ok (k, v)) fields ;;
      Ok (JDict d)
  | _ => Ok payload
  end.

(** ** Rule sets used in the statements *)

(** A configuration that sets [sentence_length_limit] only. *)
Definition limit_only (limit : Z) : EmailSimplifier :=
  {| jargon_map := []; tone_map := []; patterns := [];
     kyc_documents := []; sentence_length_limit := limit |}.

Definition jargon_only (m : list (str * str)) (limit : Z) : EmailSimplifier :=
  {| jargon_map := m; tone_map := []; patterns := [];
     kyc_documents := []; sentence_length_limit := limit |}.

Definition patterns_only (ps : list pattern) (limit : Z) : EmailSimplifier :=
  {| jargon_map := []; tone_map := []; patterns := ps;
     kyc_documents := []; sentence_length_limit := limit |}.


(** ** Auxiliary notions for the proofs *)

(** What [re.sub(r"\s+", " ", s)] computes, as a one-pass function:
    [in_run] tells that the previous character was whitespace. *)
Fixpoint squeeze (in_run : bool) (s : str) : str :=
  match s with
  | [] => []
  | c :: s' =>
      if isspace c
      then if in_run then squeeze true s' else " " :: squeeze true s'
      else c :: squeeze false s'
  end.

Definition starts_with_space (s : str) : bool :=
  match s with
  | c :: _ => isspace c
  | [] => false
  end.

(** Every whitespace character is a SPACE and no two are adjacent. *)
Fixpoint single_spaced (s : str) : bool :=
  match s with
  | [] => true
  | c :: s' =>
      (if isspace c then Ascii.eqb c " " && negb (starts_with_space s') else true)
      && single_spaced s'
  end.

Definition blank (s : str) : bool := forallb isspace s.

(** [s] ends in one of [.], [!], [?]. *)
Definition terminated (s : str) : Prop :=
  exists body p, s = body ++ [p] /\ is_terminator p = true.

(** All four rule tables are empty. *)
Definition no_rules (self : EmailSimplifier) : Prop :=
  jargon_map self = [] /\ tone_map self = [] /\
  patterns self = [] /\ kyc_documents self = [].

(** The turn of the loop of [_rewrite_sentences] for a candidate that is
    not split: it is kept, with a final [.] when it has no terminator. *)
Definition keep_sentence (cleaned : list str) (s0 : str) : list str :=
  let s := strip s0 in
  if is_empty s then cleaned
  else cleaned ++ [if ends_with_terminator s then s else s ++ chars "."].

(** The passes of [simplify_text] that come before the sentence rewrite. *)
Definition substitution_passes (self : EmailSimplifier) (text : str) : result str :=
  text <- normalize_ws text ;;
  text <- _apply_word_map text (jargon_map self) ;;
  text <- _apply_word_map text (tone_map self) ;;
  text <- _apply_patterns text (patterns self) ;;
  _apply_kyc_doc_rules self text.

(** ** Substitution in the words of the specification

    One pass over the text.  [occurs prev s] tells whether a rule applies
    at the current position, and then how many characters it covers and
    what replaces them; the replacement goes to the output as it is and is
    never looked at again. *)

Fixpoint replace_scan (occurs : option ascii -> str -> option (nat * str))
    (skip : nat) (prev : option ascii) (s : str) : str :=
  match skip with
  | S k =>
      match s with
      | c :: s' => replace_scan occurs k (Some c) s'
      | [] => []
      end
  | 0 =>
      match occurs prev s with
      | Some (n, repl) =>
          repl ++
          match s with
          | c :: s' =>
              match n with
              | 0 => c :: replace_scan occurs 0 (Some c) s'
              | S k => replace_scan occurs k (Some c) s'
              end
          | [] => []
          end
      | None =>
          match s with
          | c :: s' => c :: replace_scan occurs 0 (Some c) s'
          | [] => []
          end
      end
  end.

(** [raw] is a prefix of [s], letter case apart. *)
Fixpoint ci_prefix (raw s : str) : bool :=
  match raw with
  | [] => true
  | c :: raw' =>
      match s with
      | x :: s' => ci_eqb x c && ci_prefix raw' s'
      | [] => false
      end
  end.

(** The character before the position that follows [m]. *)
Fixpoint last_before (prev : option ascii) (m : str) : option ascii :=
  match m with
  | [] => prev
  | c :: m' => last_before (Some c) m'
  end.

(** [raw] occurs at the current position as a whole word. *)
Definition whole_word_here (raw : str) (prev : option ascii) (s : str) : bool :=
  at_boundary prev s && ci_prefix raw s &&
  at_boundary (last_before prev (firstn (List.length raw) s))
              (skipn (List.length raw) s).

(** The first rule, in mapping order, whose term occurs here as a whole
    word. *)
Fixpoint first_rule_here (rules : list (str * str)) (prev : option ascii)
    (s : str) : option (nat * str) :=
  match rules with
  | [] => None
  | (raw, simple) :: rest =>
      if whole_word_here raw prev s then Some (List.length raw, simple)
      else first_rule_here rest prev s
  end.

(** Simultaneous, non-chaining substitution of a word map: every rule is
    matched against the input text only. *)
Definition simultaneous_sub (rules : list (str * str)) (text : str) : str :=
  replace_scan (first_rule_here rules) 0 None text.

(** Replacement of every occurrence of [srch] as a substring, letter case
    apart, by [repl] taken literally. *)
Definition replace_substring (srch repl : str) (text : str) : str :=
  replace_scan
    (fun _ s => if ci_prefix srch s then Some (List.length srch, repl) else None)
    0 None text.

(** ** Positions in a payload *)

Inductive step : Type :=
| Key (k : str)    (* the value of a key of an object *)
| Index (i : nat)  (* an entry of a list *).

Fixpoint get_path (v : json) (p : list step) : option json :=
  match p with
  | [] => Some v
  | Key k :: p' =>
      match v with
      | JDict d =>
          match dict_get k d with
          | Some v' => get_path v' p'
          | None => None
          end
      | _ => None
      end
  | Index i :: p' =>
      match v with
      | JList l =>
          match nth_error l i with
          | Some v' => get_path v' p'
          | None => None
          end
      | _ => None
      end
  end.

(** The object at position [p] of [payload], when it has the text field
    with a string in it, is found at [p] in [out] with the simplified text
    written under the output field. *)
Definition simplified_at (self : JsonSimplifier) (payload out : json)
    (p : list step) : Prop :=
  forall (d : dict) (text : str),
    get_path payload p = Some (JDict d) ->
    dict_get (text_field self) d = Some (JStr text) ->
    exists t,
      simplify_text (simplifier self) text = Ok t /\
      get_path out p = Some (JDict (dict_set (output_field self) (JStr t) d)).

(** The position of a list entry: keys of objects from the payload down
    to a list, then indices through that list and the lists nested in it. *)
Definition entry_path (keys : list str) (i : nat) (indices : list nat) : list step :=
  map Key keys ++ map Index (i :: indices).

(** The adapter with its default field names. *)
Definition default_adapter (engine : EmailSimplifier) : JsonSimplifier :=
  {| simplifier := engine;
     text_field := chars "text";
     output_field := chars "simplified_text" |}.

Definition is_str (v : json) : bool :=
  match v with
  | JStr _ => true
  | _ => false
  end.

(** ** Notions for the further properties *)

(** [repl] compiles as a replacement template. *)
Definition compiles (repl : str) : bool :=
  match parse_template repl with
  | Ok _ => true
  | Raise _ => false
  end.

(** Every replacement of the four rule tables compiles. *)
Definition rules_compile (self : EmailSimplifier) : bool :=
  forallb (fun rule => compiles (snd rule)) (jargon_map self)
  && forallb (fun rule => compiles (snd rule)) (tone_map self)
  && forallb (fun p => compiles (replace p)) (patterns self)
  && forallb (fun rule => compiles (snd rule)) (kyc_documents self).

(** No replacement of the four rule tables holds a backslash. *)
Definition plain_rules (self : EmailSimplifier) : bool :=
  forallb (fun rule => negb (contains "\" (snd rule))) (jargon_map self)
  && forallb (fun rule => negb (contains "\" (snd rule))) (tone_map self)
  && forallb (fun p => negb (contains "\" (replace p))) (patterns self)
  && forallb (fun rule => negb (contains "\" (snd rule))) (kyc_documents self).

(** Two atoms that match the same characters: literals that differ in
    letter case only. *)
Inductive atom_ci : atom -> atom -> Prop :=
| atom_ci_lit (c c' : ascii) : lower c = lower c' -> atom_ci (LitI c) (LitI c')
| atom_ci_same (a : atom) : atom_ci a a.

(** Two word-map rules with the same term, letter case apart, and the same
    replacement. *)
Definition same_rule_ci (r r' : str * str) : Prop :=
  map lower (fst r) = map lower (fst r') /\ snd r = snd r'.

Definition same_pattern_ci (p p' : pattern) : Prop :=
  map lower (search p) = map lower (search p') /\ replace p = replace p'.

(** [raw] occurs somewhere in [s] as a substring, letter case apart. *)
Fixpoint ci_occurs (raw s : str) : bool :=
  ci_prefix raw s ||
  match s with
  | [] => false
  | _ :: s' => ci_occurs raw s'
  end.

(** What the sentence rewrite may add or drop: whitespace, commas and
    periods. *)
Definition is_filler (c : ascii) : bool :=
  isspace c || Ascii.eqb c "," || Ascii.eqb c ".".

(** The characters of [s] that are not fillers, in order. *)
Definition content (s : str) : str := filter (fun c => negb (is_filler c)) s.

(** Some object of [v], at any depth, has the key [k]. *)
Fixpoint mentions (k : str) (v : json) : bool :=
  match v with
  | JList items => existsb (mentions k) items
  | JDict fields =>
      existsb (fun kv : str * json =>
                 let (k', v') := kv in str_eqb k k' || mentions k v') fields
  | _ => false
  end.

(** [v] without the key [k], in every object of it. *)
Fixpoint erase (k : str) (v : json) : json :=
  match v with
  | JList items => JList (map (erase k) items)
  | JDict fields =>
      JDict (flat_map (fun kv : str * json =>
                         let (k', v') := kv in
                         if str_eqb k k' then [] else [(k', erase k v')])
               fields)
  | _ => v
  end.

(** The character before the current position is a sentence terminator. *)
Definition after_terminator (prev : option ascii) : bool :=
  match prev with
  | Some p => is_terminator p
  | None => false
  end.

(** No position of [x] is a sentence boundary: no whitespace character of
    [x] comes right after a terminator ([prev] is the character before
    [x]). *)
Fixpoint quiet (prev : option ascii) (x : str) : bool :=
  match x with
  | [] => true
  | c :: x' => negb (after_terminator prev && isspace c) && quiet (Some c) x'
  end.

(** A sentence as the rewrite emits it from a text without comma. *)
Definition sentence (x : str) : Prop :=
  starts_with_space x = false /\ ends_with_terminator x = true /\
  single_spaced x = true /\ quiet None x = true /\ contains "," x = false.

(** [piece] is a run of consecutive characters of [s]. *)
Definition segment (piece s : str) : Prop :=
  exists pre post, s = pre ++ piece ++ post.

(** [x] put in front of the first piece. *)
Definition prepend (x : str) (pieces : list str) : list str :=
  match pieces with
  | h :: t => (x ++ h) :: t
  | [] => [x]
  end.

(** Every replacement of the four rule tables is taken literally and is
    not blank: it holds no backslash and at least one character that is
    not whitespace. *)
Definition solid_repl (repl : str) : bool :=
  negb (contains "\" repl) && negb (blank repl).

Definition solid_rules (self : EmailSimplifier) : bool :=
  forallb (fun rule => solid_repl (snd rule)) (jargon_map self)
  && forallb (fun rule => solid_repl (snd rule)) (tone_map self)
  && forallb (fun p => solid_repl (replace p)) (patterns self)
  && forallb (fun rule => solid_repl (snd rule)) (kyc_documents self).

(** No pattern has the empty search string. *)
Definition searches_nonempty (self : EmailSimplifier) : Prop :=
  Forall (fun p => search p <> []) (patterns self).





(** ** The sentence rewrite in the words of the specification *)

(** The split of the candidate [cand] triggers: its whitespace-delimited
    word count is strictly above the limit and it holds a comma. *)
Definition split_triggers (limit : Z) (cand : str) : Prop :=
  (limit < Z.of_nat (List.length (str_split (strip cand))))%Z /\
  contains "," (strip cand) = true.

(** [out] is the candidate [cand] emitted intact: what is between its
    outer whitespace, as it is when its last character is one of [.], [!],
    [?], and with a [.] appended when it is not. *)
Definition emitted_intact (cand out : str) : Prop :=
  exists body p,
    strip cand = body ++ [p] /\
    ((p = "." \/ p = "!" \/ p = "?") /\ out = strip cand \/
     (p <> "." /\ p <> "!" /\ p <> "?") /\ out = strip cand ++ chars ".").

(** [outs] is the candidate [cand] split at its first comma. *)
Definition emitted_split (cand : str) (outs : list str) : Prop :=
  exists first rest,
    map strip (split_on "," (strip cand)) = first :: rest /\ rest <> [] /\
    outs = [first ++ chars "."; join (chars ", ") rest ++ chars "."].

(** What the rewrite makes of one candidate: nothing when it is blank, two
    sentences when the split triggers, and the candidate intact otherwise. *)
Definition rewritten (limit : Z) (cand : str) (outs : list str) : Prop :=
  (strip cand = [] /\ outs = []) \/
  (strip cand <> [] /\ ~ split_triggers limit cand /\
   exists out, emitted_intact cand out /\ outs = [out]) \/
  (split_triggers limit cand /\ emitted_split cand outs).

(** The candidates that are not blank. *)
Definition solid_candidates (text : str) : list str :=
  filter (fun cand => negb (is_empty (strip cand))) (re_split sentence_re text).
(** * Properties *)

(** ** Characters *)

Lemma space_is_space : isspace " " = true.
Proof. reflexivity. Qed.

Lemma terminator_not_space (c : ascii) :
  is_terminator c = true -> isspace c = false.
Proof.
  unfold is_terminator; intros H.
  apply orb_prop in H as [H | H]; [apply orb_prop in H as [H | H] |];
    apply Ascii.eqb_eq in H; subst c; reflexivity.
Qed.

(** ** The monad *)

Lemma bind_ok {A B : Type} (r : result A) (k : A -> result B) (b : B) :
  bind r k = Ok b -> exists a, r = Ok a /\ k a = Ok b.
Proof. destruct r as [a | e]; simpl; [eauto | discriminate]. Qed.

(** [inv_bind H as t Ht] opens [H : (x <- r ;; k x) = Ok b] into the value
    [t] of [r], with [Ht : r = Ok t], and leaves [H : k t = Ok b]. *)
Tactic Notation "inv_bind" hyp(H) "as" ident(t) ident(Ht) :=
  apply bind_ok in H as (t & Ht & H).

Tactic Notation "inv_bind" hyp(H) "as" ident(t) :=
  apply bind_ok in H as (t & _ & H).

Lemma for_each_app {A : Type} (l1 l2 : list A) body text :
  for_each (l1 ++ l2) body text =
  (t <- for_each l1 body text ;; for_each l2 body t).
Proof.
  revert text; induction l1 as [| x l1 IH]; intros text; simpl; [reflexivity |].
  destruct (body x text) as [t | e]; simpl; [apply IH | reflexivity].
Qed.

(** ** Templates without a backslash *)

Lemma parse_template_plain (r : str) :
  contains "\" r = false -> parse_template r = Ok (map TLit r).
Proof.
  unfold contains.
  induction r as [| c r IH]; intros H; [reflexivity |].
  cbn [existsb] in H. apply orb_false_elim in H as [Hc Hr].
  rewrite Ascii.eqb_sym in Hc.
  cbn [parse_template]. rewrite Hc; cbn [negb].
  rewrite (IH Hr); reflexivity.
Qed.

Lemma expand_plain (r m : str) : expand (map TLit r) m = r.
Proof.
  unfold expand. induction r as [| c r IH]; simpl; [reflexivity | now rewrite IH].
Qed.

(** ** Whitespace *)

Lemma match_ws (prev : option ascii) (s : str) :
  match_here ws_re prev s =
  match span isspace s with
  | 0 => None
  | S k => Some (S k)
  end.
Proof.
  unfold ws_re; cbn [match_here].
  destruct (span isspace s) as [| k]; [reflexivity |].
  cbn [option_map]. now rewrite Nat.add_0_r.
Qed.

Lemma squeeze_no_leading_space (s : str) :
  starts_with_space s = false -> squeeze true s = squeeze false s.
Proof. destruct s as [| c s]; simpl; [reflexivity |]. now intros ->. Qed.

(** The scan of [re.sub(r"\s+", " ", s)] is [squeeze]. *)
Lemma sub_scan_ws (s : str) :
  forall prev,
    sub_scan ws_re [TLit " "] 0 prev s = squeeze false s /\
    sub_scan ws_re [TLit " "] (span isspace s) prev s = squeeze true s.
Proof.
  induction s as [| c s IH]; intros prev.
  - split; reflexivity.
  - assert (H0 : sub_scan ws_re [TLit " "] 0 prev (c :: s)
                 = squeeze false (c :: s)).
    { cbn [sub_scan]. rewrite match_ws. cbn [span squeeze].
      destruct (isspace c) eqn:Hc.
      - cbn [expand flat_map app]. f_equal. apply (IH (Some c)).
      - f_equal. apply (IH (Some c)). }
    split; [exact H0 |].
    cbn [span]. destruct (isspace c) eqn:Hc.
    + cbn [sub_scan squeeze]. rewrite Hc. apply (IH (Some c)).
    + rewrite H0. cbn [squeeze]. now rewrite Hc.
Qed.

Lemma re_sub_ws (s : str) : re_sub ws_re (chars " ") s = Ok (squeeze false s).
Proof. unfold re_sub; simpl. f_equal. apply (sub_scan_ws s None). Qed.

Lemma normalize_ws_eq (s : str) : normalize_ws s = Ok (strip (squeeze false s)).
Proof. unfold normalize_ws. now rewrite re_sub_ws. Qed.

Lemma lstrip_idem (s : str) : lstrip (lstrip s) = lstrip s.
Proof.
  induction s as [| c s IH]; simpl; [reflexivity |].
  destruct (isspace c) eqn:Hc; [exact IH | simpl; now rewrite Hc].
Qed.

Lemma lstrip_suffix (s : str) : exists pre, s = pre ++ lstrip s.
Proof.
  induction s as [| c s [pre IH]]; [now exists [] |]. simpl.
  destruct (isspace c); [exists (c :: pre); simpl; now f_equal | now exists []].
Qed.

Lemma lstrip_app_solid (a b : str) (c : ascii) :
  isspace c = false -> lstrip (a ++ c :: b) = lstrip a ++ c :: b.
Proof.
  intros Hc. induction a as [| x a IH]; simpl; [now rewrite Hc |].
  destruct (isspace x); [exact IH | reflexivity].
Qed.

Lemma lstrip_starts (s : str) : starts_with_space (lstrip s) = false.
Proof.
  induction s as [| c s IH]; simpl; [reflexivity |].
  destruct (isspace c) eqn:Hc; [exact IH | simpl; exact Hc].
Qed.

Lemma lstrip_fixed (s : str) : starts_with_space s = false -> lstrip s = s.
Proof. destruct s as [| c s]; simpl; [reflexivity | now intros ->]. Qed.

Lemma rstrip_prefix (s : str) : exists post, s = rstrip s ++ post.
Proof.
  unfold rstrip. destruct (lstrip_suffix (rev s)) as [pre H].
  exists (rev pre). rewrite <- rev_app_distr, <- H. symmetry; apply rev_involutive.
Qed.

Lemma rstrip_idem (s : str) : rstrip (rstrip s) = rstrip s.
Proof. unfold rstrip. now rewrite rev_involutive, lstrip_idem. Qed.

Lemma rstrip_solid_head (c : ascii) (s : str) :
  isspace c = false -> rstrip (c :: s) = c :: rstrip s.
Proof.
  intros Hc. unfold rstrip. simpl rev.
  rewrite (lstrip_app_solid (rev s) [] c Hc), rev_app_distr. reflexivity.
Qed.

Lemma rstrip_solid_last (s : str) (c : ascii) :
  isspace c = false -> rstrip (s ++ [c]) = s ++ [c].
Proof.
  intros Hc. unfold rstrip. rewrite rev_app_distr. simpl. rewrite Hc.
  change (c :: rev s) with (rev [c] ++ rev s).
  now rewrite <- rev_app_distr, rev_involutive.
Qed.

Lemma rstrip_starts (s : str) :
  starts_with_space s = false -> starts_with_space (rstrip s) = false.
Proof.
  destruct s as [| c s]; [reflexivity |]. simpl. intros Hc.
  rewrite (rstrip_solid_head c s Hc). exact Hc.
Qed.

Lemma strip_idem (s : str) : strip (strip s) = strip s.
Proof.
  unfold strip.
  rewrite (lstrip_fixed (rstrip (lstrip s))).
  - apply rstrip_idem.
  - apply rstrip_starts, lstrip_starts.
Qed.

Lemma single_spaced_squeeze (s : str) (b : bool) : single_spaced (squeeze b s) = true.
Proof.
  revert b. induction s as [| c s IH]; intros b; [reflexivity |].
  cbn [squeeze]. destruct (isspace c) eqn:Hc.
  - destruct b; [apply IH |].
    cbn [single_spaced]. rewrite space_is_space, IH.
    destruct s as [| d s]; [reflexivity |].
    cbn [squeeze]. destruct (isspace d) eqn:Hd; [| simpl; now rewrite Hd].
    clear. induction s as [| e s IHs]; [reflexivity |].
    cbn [squeeze]. destruct (isspace e) eqn:He; [exact IHs | simpl; now rewrite He].
  - cbn [single_spaced]. now rewrite Hc, IH.
Qed.

Lemma single_spaced_suffix (a b : str) :
  single_spaced (a ++ b) = true -> single_spaced b = true.
Proof.
  induction a as [| c a IH]; simpl; [auto |].
  intros H. apply andb_prop in H as [_ H]. auto.
Qed.

Lemma single_spaced_prefix (a b : str) :
  single_spaced (a ++ b) = true -> single_spaced a = true.
Proof.
  induction a as [| c a IH]; simpl; [auto |].
  intros H. apply andb_prop in H as [Hc H]. rewrite (IH H), andb_true_r.
  destruct (isspace c); [| reflexivity].
  apply andb_prop in Hc as [-> Hn]. simpl.
  destruct a as [| d a]; [reflexivity | exact Hn].
Qed.

Lemma single_spaced_strip (s : str) :
  single_spaced s = true -> single_spaced (strip s) = true.
Proof.
  intros H. unfold strip.
  destruct (lstrip_suffix s) as [pre Hpre].
  destruct (rstrip_prefix (lstrip s)) as [post Hpost].
  rewrite Hpre in H. apply single_spaced_suffix in H.
  rewrite Hpost in H. now apply single_spaced_prefix in H.
Qed.

Lemma squeeze_fixed (s : str) : single_spaced s = true -> squeeze false s = s.
Proof.
  induction s as [| c s IH]; [reflexivity |].
  cbn [single_spaced squeeze]. intros H. apply andb_prop in H as [Hc Hs].
  destruct (isspace c).
  - apply andb_prop in Hc as [Hsp Hn].
    apply Ascii.eqb_eq in Hsp; subst c.
    apply negb_true_iff in Hn.
    rewrite (squeeze_no_leading_space s Hn), (IH Hs). reflexivity.
  - now rewrite (IH Hs).
Qed.

(** C9: whitespace normalization, [re.sub(r"\s+", " ", s).strip()], always
    returns, and normalizing its result gives the same string again. *)
Theorem normalize_ws_idempotent (s : str) :
  exists t, normalize_ws s = Ok t /\ normalize_ws t = Ok t.
Proof.
  exists (strip (squeeze false s)). split; [apply normalize_ws_eq |].
  rewrite normalize_ws_eq, squeeze_fixed.
  - now rewrite strip_idem.
  - apply single_spaced_strip, single_spaced_squeeze.
Qed.

(** ** Terminal punctuation *)

Lemma squeeze_app_solid (x : str) (p : ascii) (b : bool) :
  isspace p = false -> squeeze b (x ++ [p]) = squeeze b x ++ [p].
Proof.
  intros Hp. revert b. induction x as [| c x IH]; intros b; simpl.
  - now rewrite Hp.
  - destruct (isspace c); [destruct b |]; simpl; now rewrite IH.
Qed.

Lemma strip_app_solid (y : str) (p : ascii) :
  isspace p = false -> strip (y ++ [p]) = lstrip y ++ [p].
Proof.
  intros Hp. unfold strip.
  now rewrite (lstrip_app_solid y [] p Hp), (rstrip_solid_last (lstrip y) p Hp).
Qed.

Lemma terminated_app (x y : str) : terminated y -> terminated (x ++ y).
Proof.
  intros (body & p & -> & Hp). exists (x ++ body), p.
  now rewrite app_assoc.
Qed.

Lemma terminated_dot (x : str) : terminated (x ++ chars ".").
Proof. exists x, ".". split; reflexivity. Qed.

Lemma terminated_nonempty (x : str) : terminated x -> x <> [].
Proof. intros (body & p & -> & _). now destruct body. Qed.

Lemma ends_with_terminator_spec (s : str) :
  ends_with_terminator s = true -> terminated s.
Proof.
  unfold ends_with_terminator. intros H.
  destruct (rev s) as [| c r] eqn:Hr; [discriminate |].
  exists (rev r), c. split; [| exact H].
  rewrite <- (rev_involutive s), Hr. reflexivity.
Qed.

Lemma normalize_ws_terminated (x o : str) :
  terminated x -> normalize_ws x = Ok o -> terminated o.
Proof.
  intros (body & p & -> & Hp) H.
  pose proof (terminator_not_space p Hp) as Hsp.
  rewrite normalize_ws_eq, (squeeze_app_solid body p false Hsp),
    (strip_app_solid _ p Hsp) in H.
  injection H as <-. now exists (lstrip (squeeze false body)), p.
Qed.

Lemma join_terminated (sep : str) (l : list str) :
  Forall terminated l -> l <> [] -> terminated (join sep l).
Proof.
  induction l as [| x l IH]; [congruence |].
  intros Hall _. inversion Hall as [| ? ? Hx Hl]; subst.
  cbn [join]. destruct l as [| y l]; [exact Hx |].
  rewrite app_assoc. apply terminated_app, IH; [exact Hl | discriminate].
Qed.

Lemma rewrite_sentence_terminated (limit : Z) (cleaned : list str) (s0 : str) :
  Forall terminated cleaned ->
  Forall terminated (rewrite_sentence limit cleaned s0).
Proof.
  intros Hc. unfold rewrite_sentence.
  destruct (is_empty (strip s0)); [exact Hc |].
  destruct (_ && _).
  - assert (H1 : Forall terminated
        (cleaned ++ [hd [] (map strip (split_on "," (strip s0))) ++ chars "."])).
    { apply Forall_app; split; [exact Hc |].
      constructor; [apply terminated_dot | constructor]. }
    destruct (1 <? _); [| exact H1].
    apply Forall_app; split; [exact H1 |].
    constructor; [apply terminated_dot | constructor].
  - apply Forall_app; split; [exact Hc |]. constructor; [| constructor].
    destruct (ends_with_terminator (strip s0)) eqn:He.
    + now apply ends_with_terminator_spec.
    + apply terminated_dot.
Qed.

Lemma fold_rewrite_terminated (limit : Z) (sentences : list str) :
  forall cleaned,
    Forall terminated cleaned ->
    Forall terminated (fold_left (rewrite_sentence limit) sentences cleaned).
Proof.
  induction sentences as [| s0 l IH]; intros cleaned Hc; [exact Hc |].
  apply IH, rewrite_sentence_terminated, Hc.
Qed.

Lemma rewrite_sentences_shape (self : EmailSimplifier) (text : str) :
  _rewrite_sentences self text = [] \/ terminated (_rewrite_sentences self text).
Proof.
  unfold _rewrite_sentences.
  pose proof (fold_rewrite_terminated (sentence_length_limit self)
                (re_split sentence_re text) [] (Forall_nil _)) as H.
  destruct (fold_left _ _ _) as [| x l] eqn:E; [now left |].
  right. apply join_terminated; [exact H | discriminate].
Qed.

(** Whatever the rule tables hold, a result of [simplify_text] is empty or
    ends in [.], [!] or [?]. *)
Lemma simplify_text_shape (self : EmailSimplifier) (s o : str) :
  simplify_text self s = Ok o -> o = [] \/ terminated o.
Proof.
  unfold simplify_text. destruct s as [| c s]; cbn [is_empty].
  - intros H; injection H as <-; now left.
  - intros H.
    inv_bind H as t1. inv_bind H as t2.
    inv_bind H as t3. inv_bind H as t4.
    inv_bind H as t5.
    destruct (rewrite_sentences_shape self t5) as [E | T].
    + rewrite E in H. vm_compute in H. injection H as <-. now left.
    + right. eapply normalize_ws_terminated; eassumption.
Qed.

(** ** Blank and non-blank text *)

Lemma lstrip_blank (s : str) : blank s = true -> lstrip s = [].
Proof.
  induction s as [| c s IH]; simpl; [reflexivity |].
  intros H. apply andb_prop in H as [-> H]. auto.
Qed.

Lemma strip_blank (s : str) : blank s = true -> strip s = [].
Proof. intros H. unfold strip. now rewrite (lstrip_blank s H). Qed.

Lemma squeeze_blank (s : str) (b : bool) :
  blank s = true -> blank (squeeze b s) = true.
Proof.
  revert b. induction s as [| c s IH]; intros b; simpl; [reflexivity |].
  intros H. apply andb_prop in H as [-> H].
  destruct b; simpl; auto.
Qed.

Lemma squeeze_solid (s : str) (b : bool) :
  blank s = false -> blank (squeeze b s) = false.
Proof.
  revert b. induction s as [| c s IH]; intros b; simpl; [discriminate |].
  destruct (isspace c) eqn:Hc; simpl.
  - intros H. destruct b; simpl; auto.
  - intros _. now rewrite Hc.
Qed.

Lemma lstrip_solid (s : str) :
  blank s = false -> exists c r, lstrip s = c :: r /\ isspace c = false.
Proof.
  induction s as [| c s IH]; simpl; [discriminate |].
  destruct (isspace c) eqn:Hc; simpl; [exact IH | eauto].
Qed.

Lemma strip_solid (s : str) : blank s = false -> is_empty (strip s) = false.
Proof.
  intros H. destruct (lstrip_solid s H) as (c & r & E & Hc).
  unfold strip. now rewrite E, (rstrip_solid_head c r Hc).
Qed.

Lemma match_sentence (prev : option ascii) (s : str) (n : nat) :
  match_here sentence_re prev s = Some n -> n = span isspace s /\ n <> 0.
Proof.
  unfold sentence_re; cbn [match_here].
  destruct prev as [x |]; [| discriminate].
  destruct (is_terminator x); [| discriminate].
  destruct (span isspace s) as [| k]; [discriminate |].
  cbn [option_map]. rewrite Nat.add_0_r. intros H; injection H as <-.
  split; [reflexivity | discriminate].
Qed.

Lemma push_solid (c : ascii) (l : list str) :
  Exists (fun x => blank x = false) l ->
  Exists (fun x => blank x = false) (push c l).
Proof.
  intros H. destruct H as [x l Hx | x l Hl]; simpl.
  - left. simpl. now rewrite Hx, andb_false_r.
  - now right.
Qed.

Lemma push_solid_head (c : ascii) (l : list str) :
  isspace c = false -> Exists (fun x => blank x = false) (push c l).
Proof. intros Hc. destruct l; left; simpl; now rewrite Hc. Qed.

(** A character that is not whitespace is never consumed by a sentence
    split: it ends up in one of the candidates. *)
Lemma split_scan_solid (s : str) :
  forall skip prev,
    skip <= span isspace s -> blank s = false ->
    Exists (fun x => blank x = false) (split_scan sentence_re skip prev s).
Proof.
  induction s as [| c s IH]; intros skip prev Hk Hb; [discriminate |].
  cbn [span] in Hk. cbn [blank forallb] in Hb. fold (blank s) in Hb.
  destruct skip as [| k].
  - cbn [split_scan].
    destruct (match_here sentence_re prev (c :: s)) as [n |] eqn:Hm.
    + apply match_sentence in Hm as [Hn Hn0]. cbn [span] in Hn.
      destruct (isspace c) eqn:Hc; [| congruence]. subst n.
      right. apply IH; [lia | exact Hb].
    + destruct (isspace c) eqn:Hc.
      * apply push_solid, IH; [lia | exact Hb].
      * now apply push_solid_head.
  - cbn [split_scan]. destruct (isspace c) eqn:Hc; [| lia].
    apply IH; [lia | exact Hb].
Qed.

Lemma rewrite_sentence_grows (limit : Z) (cleaned : list str) (s0 : str) :
  exists added,
    rewrite_sentence limit cleaned s0 = cleaned ++ added /\
    (blank s0 = false -> added <> []).
Proof.
  unfold rewrite_sentence.
  destruct (is_empty (strip s0)) eqn:He.
  - exists []. split; [now rewrite app_nil_r |].
    intros Hb. rewrite (strip_solid s0 Hb) in He. discriminate.
  - destruct (_ && _).
    + destruct (1 <? _).
      * eexists. rewrite <- app_assoc. split; [reflexivity | discriminate].
      * eexists. split; [reflexivity | discriminate].
    + eexists. split; [reflexivity | discriminate].
Qed.

Lemma fold_rewrite_grows (limit : Z) (sentences : list str) :
  forall cleaned,
    exists added,
      fold_left (rewrite_sentence limit) sentences cleaned = cleaned ++ added /\
      (Exists (fun x => blank x = false) sentences -> added <> []).
Proof.
  induction sentences as [| s0 l IH]; intros cleaned.
  - exists []. split; [now rewrite app_nil_r | intros H; inversion H].
  - cbn [fold_left].
    destruct (rewrite_sentence_grows limit cleaned s0) as (a1 & E1 & N1).
    destruct (IH (rewrite_sentence limit cleaned s0)) as (a2 & E2 & N2).
    exists (a1 ++ a2). rewrite E2, E1, <- app_assoc. split; [reflexivity |].
    intros H Ha. apply app_eq_nil in Ha as [-> ->].
    inversion H; subst; [now apply N1 | now apply N2].
Qed.

Lemma rewrite_sentences_solid (self : EmailSimplifier) (text : str) :
  blank text = false -> terminated (_rewrite_sentences self text).
Proof.
  intros Hb. unfold _rewrite_sentences.
  destruct (fold_rewrite_grows (sentence_length_limit self)
              (re_split sentence_re text) []) as (added & E & N).
  apply join_terminated.
  - apply fold_rewrite_terminated. constructor.
  - rewrite E. simpl. apply N.
    apply split_scan_solid; [lia | exact Hb].
Qed.

Lemma rewrite_sentences_nil (self : EmailSimplifier) :
  _rewrite_sentences self [] = [].
Proof. reflexivity. Qed.

Lemma strip_solid_head (s : str) :
  blank s = false -> exists c r, strip s = c :: r /\ isspace c = false.
Proof.
  intros H. destruct (lstrip_solid s H) as (c & r & E & Hc).
  exists c, (rstrip r). unfold strip. now rewrite E, (rstrip_solid_head c r Hc).
Qed.

Lemma normalize_ws_blank (s : str) : blank s = true -> normalize_ws s = Ok [].
Proof.
  intros H. rewrite normalize_ws_eq, strip_blank; [reflexivity |].
  now apply squeeze_blank.
Qed.

Lemma normalize_ws_solid (s : str) :
  blank s = false -> exists t, normalize_ws s = Ok t /\ blank t = false.
Proof.
  intros H. rewrite normalize_ws_eq. eexists; split; [reflexivity |].
  destruct (strip_solid_head (squeeze false s)) as (c & r & -> & Hc).
  - now apply squeeze_solid.
  - simpl. now rewrite Hc.
Qed.

(** ** The substitution passes on the empty text *)

Lemma re_sub_word_nil (raw simple t : str) :
  re_sub (word_re raw) simple [] = Ok t -> t = [].
Proof.
  unfold re_sub. intros H. inv_bind H as tpl.
  now injection H as <-.
Qed.

Lemma re_sub_escaped_nil (srch repl t : str) :
  srch <> [] -> re_sub (escaped srch) repl [] = Ok t -> t = [].
Proof.
  unfold re_sub. intros Hs H. inv_bind H as tpl.
  destruct srch as [| c srch]; [congruence |]. now injection H as <-.
Qed.

Lemma for_each_nil_text {A : Type} (l : list A) body (t : str) :
  Forall (fun x => forall u, body x [] = Ok u -> u = []) l ->
  for_each l body [] = Ok t -> t = [].
Proof.
  induction l as [| x l IH]; simpl; intros Hall H.
  - now injection H as <-.
  - inversion Hall as [| ? ? Hx Hl]; subst.
    inv_bind H as u Hu. apply Hx in Hu; subst u. auto.
Qed.

Lemma word_map_nil_text (m : list (str * str)) (t : str) :
  _apply_word_map [] m = Ok t -> t = [].
Proof.
  apply for_each_nil_text, Forall_forall.
  intros [raw simple] _ u. apply re_sub_word_nil.
Qed.

Lemma simplify_text_blank (self : EmailSimplifier) (s o : str) :
  Forall (fun p => search p <> []) (patterns self) ->
  blank s = true -> simplify_text self s = Ok o -> o = [].
Proof.
  intros Hp Hb. unfold simplify_text.
  destruct (is_empty s) eqn:He.
  - destruct s; [| discriminate]. now intros H; injection H as <-.
  - rewrite (normalize_ws_blank s Hb). cbn [bind]. intros H.
    inv_bind H as t2 H2. apply word_map_nil_text in H2; subst t2.
    inv_bind H as t3 H3. apply word_map_nil_text in H3; subst t3.
    inv_bind H as t4 H4.
    assert (t4 = []) as ->.
    { revert H4. apply for_each_nil_text.
      eapply Forall_impl; [| exact Hp]. intros p Hne u.
      now apply re_sub_escaped_nil. }
    inv_bind H as t5 H5.
    assert (t5 = []) as ->.
    { revert H5. apply for_each_nil_text, Forall_forall.
      intros [raw friendly] _ u. apply re_sub_word_nil. }
    rewrite rewrite_sentences_nil in H. now injection H as <-.
Qed.

Lemma simplify_text_no_rules (self : EmailSimplifier) (s : str) :
  no_rules self ->
  exists o, simplify_text self s = Ok o /\ (o = [] <-> blank s = true).
Proof.
  intros (Hj & Ht & Hp & Hk).
  destruct (blank s) eqn:Hb.
  - destruct s as [| c s]; [exists []; now split |].
    exists []. split; [| now split].
    unfold simplify_text, _apply_kyc_doc_rules. rewrite Hj, Ht, Hp, Hk.
    cbn [is_empty]. rewrite (normalize_ws_blank _ Hb). reflexivity.
  - destruct s as [| c s]; [discriminate |].
    destruct (normalize_ws_solid _ Hb) as (t & Ht1 & Hbt).
    pose proof (rewrite_sentences_solid self t Hbt) as Hterm.
    eexists. split.
    + unfold simplify_text, _apply_kyc_doc_rules. rewrite Hj, Ht, Hp, Hk.
      cbn [is_empty]. rewrite Ht1. cbn [bind _apply_word_map _apply_patterns for_each].
      apply normalize_ws_eq.
    + split; [| discriminate]. intros E. exfalso.
      eapply terminated_nonempty; [| exact E].
      eapply normalize_ws_terminated; [exact Hterm | apply normalize_ws_eq].
Qed.

(** ** Sentences without a comma *)

Lemma simplify_text_unfold (self : EmailSimplifier) (s : str) :
  simplify_text self s =
  if is_empty s then Ok s
  else t <- substitution_passes self s ;;
       normalize_ws (_rewrite_sentences self t).
Proof.
  unfold simplify_text, substitution_passes.
  destruct (is_empty s); [reflexivity |].
  destruct (normalize_ws s) as [t1 | e]; [cbn [bind] | reflexivity].
  destruct (_apply_word_map t1 _) as [t2 | e]; [cbn [bind] | reflexivity].
  destruct (_apply_word_map t2 _) as [t3 | e]; [cbn [bind] | reflexivity].
  destruct (_apply_patterns t3 _) as [t4 | e]; [cbn [bind] | reflexivity].
  reflexivity.
Qed.

Lemma contains_app (c : ascii) (a b : str) :
  contains c (a ++ b) = contains c a || contains c b.
Proof. apply existsb_app. Qed.

Lemma contains_strip (c : ascii) (s : str) :
  contains c s = false -> contains c (strip s) = false.
Proof.
  intros H. unfold strip.
  destruct (lstrip_suffix s) as [pre Hpre].
  destruct (rstrip_prefix (lstrip s)) as [post Hpost].
  rewrite Hpre, contains_app in H. apply orb_false_elim in H as [_ H].
  rewrite Hpost, contains_app in H. now apply orb_false_elim in H as [H _].
Qed.

Lemma push_free (c d : ascii) (l : list str) :
  Ascii.eqb c d = false ->
  Forall (fun x => contains c x = false) l ->
  Forall (fun x => contains c x = false) (push d l).
Proof.
  intros Hd H. destruct H as [| x l Hx Hl]; simpl.
  - constructor; [simpl; now rewrite Hd | constructor].
  - constructor; [simpl; now rewrite Hd, Hx | exact Hl].
Qed.

(** The candidates of a split are made of characters of the text. *)
Lemma split_scan_free (c : ascii) (p : regex) (s : str) :
  forall skip prev,
    contains c s = false ->
    Forall (fun x => contains c x = false) (split_scan p skip prev s).
Proof.
  assert (N : Forall (fun x => contains c x = false) [[]])
    by (constructor; [reflexivity | constructor]).
  induction s as [| d s IH]; intros skip prev H.
  - destruct skip; cbn [split_scan]; [| exact N].
    destruct (match_here p prev []); [constructor; [reflexivity | exact N] | exact N].
  - cbn [contains existsb] in H. apply orb_false_elim in H as [Hd Hs].
    fold (contains c s) in Hs.
    destruct skip as [| k]; cbn [split_scan]; [| now apply IH].
    destruct (match_here p prev (d :: s)) as [[| k] |].
    + constructor; [reflexivity |]. apply push_free; [exact Hd | now apply IH].
    + constructor; [reflexivity |]. now apply IH.
    + apply push_free; [exact Hd | now apply IH].
Qed.

Lemma rewrite_sentence_no_comma (limit : Z) (cleaned : list str) (s0 : str) :
  contains "," (strip s0) = false ->
  rewrite_sentence limit cleaned s0 = keep_sentence cleaned s0.
Proof.
  intros H. unfold rewrite_sentence, keep_sentence.
  now rewrite H, andb_false_r.
Qed.

Lemma fold_rewrite_no_comma (limit : Z) (sentences : list str) :
  Forall (fun x => contains "," x = false) sentences ->
  forall cleaned,
    fold_left (rewrite_sentence limit) sentences cleaned =
    fold_left keep_sentence sentences cleaned.
Proof.
  induction 1 as [| s0 l Hs Hl IH]; intros cleaned; [reflexivity |].
  cbn [fold_left].
  rewrite rewrite_sentence_no_comma; [apply IH | now apply contains_strip].
Qed.

(** A text without a comma is never split, whatever the limit is. *)
Lemma rewrite_sentences_no_comma (self : EmailSimplifier) (text : str) :
  contains "," text = false ->
  _rewrite_sentences self text =
  join (chars " ") (fold_left keep_sentence (re_split sentence_re text) []).
Proof.
  intros H. unfold _rewrite_sentences. f_equal.
  apply fold_rewrite_no_comma. now apply split_scan_free.
Qed.

(** Evaluation of [simplify_text] on a concrete text whose substitution
    passes give [t], a text without comma. *)
Lemma simplify_text_no_comma (self : EmailSimplifier) (s t : str) :
  is_empty s = false ->
  substitution_passes self s = Ok t ->
  contains "," t = false ->
  simplify_text self s =
  normalize_ws
    (join (chars " ") (fold_left keep_sentence (re_split sentence_re t) [])).
Proof.
  intros He Hp Hc.
  now rewrite simplify_text_unfold, He, Hp; cbn [bind];
    rewrite rewrite_sentences_no_comma.
Qed.

(** ** The worked examples of the specification *)

(** C1: with [sentence_length_limit = 5] and no other rule, the sentence of
    the example is split at its comma, and the second part leaves the
    engine with two periods: the split appends [.] to the remainder, which
    already ends in the period of the input. *)
Theorem split_remainder_gets_second_period :
  simplify_text (limit_only 5)
    (chars "This is a very long sentence with many words, and a second clause.")
  = Ok (chars "This is a very long sentence with many words. and a second clause..").
Proof. vm_compute. reflexivity. Qed.

(** The example of the word maps: [id] inside [identification] stays. *)
Lemma jargon_example (limit : Z) :
  simplify_text (jargon_only [(chars "id", chars "identity")] limit)
    (chars "identification id")
  = Ok (chars "identification identity.").
Proof.
  rewrite (simplify_text_no_comma _ _ (chars "identification identity"));
    vm_compute; reflexivity.
Qed.

(** The example of the pattern pass: a phrase is replaced as a substring. *)
Lemma pattern_example (limit : Z) :
  simplify_text
    (patterns_only [{| search := chars "as soon as possible";
                       replace := chars "right away" |}] limit)
    (chars "Please respond as soon as possible.")
  = Ok (chars "Please respond right away.").
Proof.
  rewrite (simplify_text_no_comma _ _ (chars "Please respond right away."));
    vm_compute; reflexivity.
Qed.

(** C10, the counterexample, in both directions of "exactly when": a rule that
    deletes the whole text gives the empty result for a text that is not
    blank, and a pattern with an empty search string gives a result for a
    blank text. *)
Lemma empty_result_is_not_blank_input :
  (simplify_text
     {| jargon_map := []; tone_map := [(chars "kindly", chars "")];
        patterns := []; kyc_documents := []; sentence_length_limit := 22 |}
     (chars "Kindly") = Ok []
   /\ blank (chars "Kindly") = false) /\
  (simplify_text
     (patterns_only [{| search := chars ""; replace := chars "hi" |}] 22)
     (chars " ") = Ok (chars "hi.")
   /\ blank (chars " ") = true).
Proof. vm_compute. repeat split; reflexivity. Qed.

(** ** The scan of [re.sub] against substitution as the specification words it *)

Lemma sub_scan_replace_scan (p : regex) (t : template)
    (occurs : option ascii -> str -> option (nat * str)) :
  (forall prev s, match_here p prev s = option_map fst (occurs prev s)) ->
  (forall prev s n repl,
      occurs prev s = Some (n, repl) -> expand t (firstn n s) = repl) ->
  forall s skip prev,
    sub_scan p t skip prev s = replace_scan occurs skip prev s.
Proof.
  intros Hm He. induction s as [| c s IH]; intros skip prev.
  - destruct skip; cbn [sub_scan replace_scan]; [| reflexivity].
    rewrite Hm. destruct (occurs prev []) as [[n repl] |] eqn:Ho; [| reflexivity].
    cbn [option_map fst]. now rewrite (He _ _ _ _ Ho).
  - destruct skip; cbn [sub_scan replace_scan]; [| apply IH].
    rewrite Hm. destruct (occurs prev (c :: s)) as [[n repl] |] eqn:Ho.
    + cbn [option_map fst]. rewrite (He _ _ _ _ Ho).
      destruct n; now rewrite IH.
    + cbn [option_map]. now rewrite IH.
Qed.

Lemma match_escaped (srch : str) :
  forall prev s,
    match_here (escaped srch) prev s =
    if ci_prefix srch s then Some (List.length srch) else None.
Proof.
  unfold escaped. induction srch as [| c srch IH]; intros prev s; [reflexivity |].
  cbn [map match_here ci_prefix List.length].
  destruct s as [| x s]; [reflexivity |].
  destruct (ci_eqb x c); [| reflexivity].
  rewrite IH. cbn [andb]. now destruct (ci_prefix srch s).
Qed.

Lemma match_word_tail (raw : str) :
  forall prev s,
    match_here (escaped raw ++ [WordBoundary]) prev s =
    if ci_prefix raw s &&
       at_boundary (last_before prev (firstn (List.length raw) s))
                   (skipn (List.length raw) s)
    then Some (List.length raw) else None.
Proof.
  unfold escaped. induction raw as [| c raw IH]; intros prev s.
  - cbn. now destruct (at_boundary prev s).
  - cbn [map app match_here ci_prefix List.length].
    destruct s as [| x s]; [reflexivity |].
    destruct (ci_eqb x c); [| reflexivity].
    rewrite IH. cbn [andb firstn skipn last_before].
    now destruct (_ && _).
Qed.

Lemma match_word (raw : str) (prev : option ascii) (s : str) :
  match_here (word_re raw) prev s =
  if whole_word_here raw prev s then Some (List.length raw) else None.
Proof.
  unfold word_re, whole_word_here. cbn [match_here].
  destruct (at_boundary prev s); [| reflexivity].
  rewrite match_word_tail. cbn [andb]. reflexivity.
Qed.

(** C4: a word-map pattern matches whole words only: where
    [rf"\b{re.escape(raw)}\b"] matches, the text continues with [raw],
    letter case apart, and there is a word boundary before and after it.
    With [jargon_map = {"id": "identity"}] and nothing else, whatever the
    sentence length limit, ["identification id"] becomes
    ["identification identity."]: the [id] inside [identification] stays,
    the word [id] is replaced, and a period is appended. *)
Theorem whole_word_boundary :
  (forall (raw : str) (prev : option ascii) (s : str) (n : nat),
      match_here (word_re raw) prev s = Some n ->
      n = List.length raw /\ ci_prefix raw s = true /\
      at_boundary prev s = true /\
      at_boundary (last_before prev (firstn n s)) (skipn n s) = true) /\
  (forall limit : Z,
      simplify_text (jargon_only [(chars "id", chars "identity")] limit)
        (chars "identification id")
      = Ok (chars "identification identity.")).
Proof.
  split; [| apply jargon_example].
  intros raw prev s n. rewrite match_word. unfold whole_word_here.
  destruct (at_boundary prev s); [| discriminate].
  destruct (ci_prefix raw s); [| discriminate]. cbn [andb].
  destruct (at_boundary _ _) eqn:E; [| discriminate].
  intros H; injection H as <-. auto.
Qed.

(** The word [id] after a space and before a period. *)
Lemma whole_word_boundary_witness :
  2 = List.length (chars "id") /\ ci_prefix (chars "id") (chars "id.") = true /\
  at_boundary (Some " "%char) (chars "id.") = true /\
  at_boundary (last_before (Some " "%char) (firstn 2 (chars "id.")))
    (skipn 2 (chars "id.")) = true.
Proof.
  apply (proj1 whole_word_boundary (chars "id") (Some " "%char) (chars "id.") 2).
  reflexivity.
Defined.

(** One rule of a word map whose replacement holds no backslash: [re.sub]
    is the simultaneous substitution of that rule alone. *)
Lemma re_sub_word_plain (raw simple text : str) :
  contains "\" simple = false ->
  re_sub (word_re raw) simple text = Ok (simultaneous_sub [(raw, simple)] text).
Proof.
  intros Hs. unfold re_sub, simultaneous_sub.
  rewrite (parse_template_plain simple Hs). cbn [bind]. f_equal.
  apply sub_scan_replace_scan.
  - intros prev s. rewrite match_word. cbn [first_rule_here].
    now destruct (whole_word_here raw prev s).
  - intros prev s n repl. cbn [first_rule_here].
    destruct (whole_word_here raw prev s); [| discriminate].
    intros H; injection H as <- <-. apply expand_plain.
Qed.

(** One pattern whose replacement holds no backslash: [re.sub] replaces
    the occurrences of the search string as a substring. *)
Lemma re_sub_escaped_plain (srch repl text : str) :
  contains "\" repl = false ->
  re_sub (escaped srch) repl text = Ok (replace_substring srch repl text).
Proof.
  intros Hs. unfold re_sub, replace_substring.
  rewrite (parse_template_plain repl Hs). cbn [bind]. f_equal.
  apply sub_scan_replace_scan.
  - intros prev s. rewrite match_escaped. now destruct (ci_prefix srch s).
  - intros prev s n r. destruct (ci_prefix srch s); [| discriminate].
    intros H; injection H as <- <-. apply expand_plain.
Qed.

(** C2, the counterexample: with the rules [a -> b] and [b -> c], the
    text [a] becomes [c]; the second rule rewrites what the first one
    inserted, where a simultaneous substitution gives [b]. *)
Lemma word_map_chains :
  _apply_word_map (chars "a")
    [(chars "a", chars "b"); (chars "b", chars "c")] = Ok (chars "c")
  /\ simultaneous_sub [(chars "a", chars "b"); (chars "b", chars "c")]
       (chars "a") = chars "b".
Proof. vm_compute. split; reflexivity. Qed.

(** C2 (as amended): the rules of a word map are applied one after the
    other, in mapping order, each to the whole text that the rules before
    it produced, so a later rule sees what an earlier rule inserted.  Only
    within one rule is the substitution simultaneous: for replacements
    that hold no backslash, the pass is the composition, rule after rule,
    of the simultaneous substitution of that single rule. *)
Theorem word_map_sequential :
  (forall (m1 m2 : list (str * str)) (text : str),
      _apply_word_map text (m1 ++ m2) =
      (t <- _apply_word_map text m1 ;; _apply_word_map t m2)) /\
  (forall (mapping : list (str * str)) (text : str),
      Forall (fun rule => contains "\" (snd rule) = false) mapping ->
      _apply_word_map text mapping =
      Ok (fold_left (fun t rule => simultaneous_sub [rule] t) mapping text)).
Proof.
  split.
  - intros m1 m2 text. apply for_each_app.
  - intros mapping text H. revert text. unfold _apply_word_map.
    induction H as [| [raw simple] l Hr Hl IH]; intros text; [reflexivity |].
    cbn [for_each fold_left]. cbn [snd] in Hr.
    rewrite (re_sub_word_plain raw simple text Hr). cbn [bind]. apply IH.
Qed.

(** Two chained rules on a text that holds both terms. *)
Lemma word_map_sequential_witness :
  _apply_word_map (chars "a b")
    [(chars "a", chars "b"); (chars "b", chars "c")] = Ok (chars "c c").
Proof.
  apply (proj2 word_map_sequential
           [(chars "a", chars "b"); (chars "b", chars "c")] (chars "a b")).
  repeat constructor.
Defined.

(** The pass over [kyc_documents] is the same loop as [_apply_word_map]. *)
Lemma kyc_doc_rules_is_word_map (self : EmailSimplifier) (text : str) :
  _apply_kyc_doc_rules self text = _apply_word_map text (kyc_documents self).
Proof. reflexivity. Qed.

(** C6, the counterexample: a replacement that holds a backslash is not
    inserted as it is.  [re.sub] reads it as a template: two backslashes
    give one, and an escape that does not exist raises. *)
Lemma pattern_replacement_is_a_template :
  _apply_patterns (chars "a")
    [{| search := chars "a"; replace := chars "\\" |}] = Ok (chars "\")
  /\ _apply_patterns (chars "path")
       [{| search := chars "path"; replace := chars "C:\docs" |}]
     = Raise SubError.
Proof. vm_compute. split; reflexivity. Qed.

(** C6 (as amended): the pattern pass goes through the pairs in list
    order and, for a pair whose [replace] holds no backslash, replaces
    every occurrence of [search] as a literal substring, letter case apart
    and with no word boundary, by [replace].  With the pattern of the
    example, ["Please respond as soon as possible."] becomes
    ["Please respond right away."]. *)
Theorem pattern_pass_literal_substring :
  (forall (ps : list pattern) (text : str),
      Forall (fun p => contains "\" (replace p) = false) ps ->
      _apply_patterns text ps =
      Ok (fold_left (fun t p => replace_substring (search p) (replace p) t)
            ps text)) /\
  (forall limit : Z,
      simplify_text
        (patterns_only [{| search := chars "as soon as possible";
                           replace := chars "right away" |}] limit)
        (chars "Please respond as soon as possible.")
      = Ok (chars "Please respond right away.")).
Proof.
  split; [| apply pattern_example].
  intros ps text H. revert text. unfold _apply_patterns.
  induction H as [| p l Hp Hl IH]; intros text; [reflexivity |].
  cbn [for_each fold_left].
  rewrite (re_sub_escaped_plain (search p) (replace p) text Hp). apply IH.
Qed.

(** One pattern, two occurrences that differ in letter case. *)
Lemma pattern_pass_literal_substring_witness :
  _apply_patterns (chars "Send it ASAP, asap!")
    [{| search := chars "asap"; replace := chars "soon" |}]
  = Ok (chars "Send it soon, soon!").
Proof.
  apply (proj1 pattern_pass_literal_substring
           [{| search := chars "asap"; replace := chars "soon" |}]
           (chars "Send it ASAP, asap!")).
  repeat constructor.
Defined.

(** ** Objects and lists of a payload *)

Lemma str_eqb_eq (a b : str) : str_eqb a b = true <-> a = b.
Proof. unfold str_eqb. destruct (list_eq_dec ascii_dec a b); split; congruence. Qed.

Lemma str_eqb_neq (a b : str) : str_eqb a b = false <-> a <> b.
Proof. unfold str_eqb. destruct (list_eq_dec ascii_dec a b); split; congruence. Qed.

Lemma dict_get_set_same (k : str) (v : json) (d : dict) :
  dict_get k (dict_set k v d) = Some v.
Proof.
  induction d as [| [k' v'] d IH]; cbn [dict_set dict_get].
  - now rewrite (proj2 (str_eqb_eq k k) eq_refl).
  - destruct (str_eqb k k') eqn:E; cbn [dict_get]; now rewrite E.
Qed.

Lemma dict_get_set_other (k k0 : str) (v : json) (d : dict) :
  k <> k0 -> dict_get k (dict_set k0 v d) = dict_get k d.
Proof.
  intros Hne. apply str_eqb_neq in Hne as Hf.
  induction d as [| [k' v'] d IH]; cbn [dict_set dict_get].
  - now rewrite Hf.
  - destruct (str_eqb k0 k') eqn:E; cbn [dict_get].
    + apply str_eqb_eq in E; subst k'. now rewrite Hf.
    + now rewrite IH.
Qed.

Lemma dict_set_keys (k : str) (v : json) (d : dict) :
  map fst (dict_set k v d) =
  if existsb (str_eqb k) (map fst d) then map fst d else map fst d ++ [k].
Proof.
  induction d as [| [k' v'] d IH]; cbn [dict_set map fst existsb]; [reflexivity |].
  destruct (str_eqb k k'); cbn [map fst orb]; [reflexivity |].
  rewrite IH. now destruct (existsb _ _).
Qed.

Lemma mapM_nth {A B : Type} (f : A -> result B) (l : list A) (l' : list B)
    (i : nat) (a : A) :
  mapM f l = Ok l' -> nth_error l i = Some a ->
  exists b, f a = Ok b /\ nth_error l' i = Some b.
Proof.
  revert l' i. induction l as [| x l IH]; intros l' i H Hn.
  - destruct i; discriminate.
  - cbn [mapM] in H. inv_bind H as b Hb.
    inv_bind H as bs Hbs. injection H as <-.
    destruct i as [| i]; cbn [nth_error] in *.
    + injection Hn as <-. eauto.
    + eapply IH; eassumption.
Qed.

(** The object comprehension of [simplify_payload] keeps the keys and
    sends the containers among the values through [simplify_payload]. *)
Lemma payload_fields_get (self : JsonSimplifier) (fields d' : dict)
    (k : str) (v : json) :
  mapM (fun kv : str * json =>
          let (k, v) := kv in
          if _is_container v
          then v' <- simplify_payload self v ;; Ok (k, v')
          else Ok (k, v)) fields = Ok d' ->
  dict_get k fields = Some v ->
  exists v',
    (if _is_container v then simplify_payload self v else Ok v) = Ok v' /\
    dict_get k d' = Some v'.
Proof.
  revert d'. induction fields as [| [k0 v0] fields IH]; intros d' H Hg.
  - discriminate.
  - cbn [mapM] in H. apply bind_ok in H as ([k1 v1] & H1 & H).
    inv_bind H as rest Hrest. injection H as <-.
    assert (Hk : k1 = k0 /\
                 (if _is_container v0 then simplify_payload self v0 else Ok v0)
                 = Ok v1).
    { destruct (_is_container v0).
      - apply bind_ok in H1 as (w & Hw & H1). injection H1 as <- <-. auto.
      - injection H1 as <- <-. auto. }
    destruct Hk as [-> Hv]. cbn [dict_get] in *.
    destruct (str_eqb k k0).
    + injection Hg as <-. eauto.
    + eapply IH; eauto.
Qed.

Lemma payload_fields_keys (self : JsonSimplifier) (fields d' : dict) :
  mapM (fun kv : str * json =>
          let (k, v) := kv in
          if _is_container v
          then v' <- simplify_payload self v ;; Ok (k, v')
          else Ok (k, v)) fields = Ok d' ->
  map fst d' = map fst fields.
Proof.
  revert d'. induction fields as [| [k0 v0] fields IH]; intros d' H.
  - now injection H as <-.
  - cbn [mapM] in H. apply bind_ok in H as ([k1 v1] & H1 & H).
    inv_bind H as rest Hrest. injection H as <-.
    cbn [map fst]. rewrite (IH rest Hrest). f_equal.
    destruct (_is_container v0).
    + apply bind_ok in H1 as (w & Hw & H1). now injection H1 as <- <-.
    + now injection H1 as <- <-.
Qed.

Lemma get_path_nonempty_container (v r : json) (p : list step) :
  p <> [] -> get_path v p = Some r -> _is_container v = true.
Proof.
  destruct p as [| [k | i] p]; [congruence | |]; intros _;
    destruct v; cbn; congruence.
Qed.

(** Entries: [_simplify_entry] goes down through nested lists. *)
Lemma simplify_entry_at (self : JsonSimplifier) (indices : list nat) :
  forall entry out,
    _simplify_entry self entry = Ok out ->
    simplified_at self entry out (map Index indices).
Proof.
  induction indices as [| i indices IH]; intros entry out H d text Hp Hd.
  - cbn in Hp. injection Hp as ->. cbn [_simplify_entry] in H.
    rewrite Hd in H. inv_bind H as t Ht. injection H as <-.
    exists t. split; [exact Ht | reflexivity].
  - cbn [map get_path] in Hp.
    destruct entry as [| | | | | items |]; try discriminate.
    destruct (nth_error items i) as [e |] eqn:Hn; [| discriminate].
    cbn [_simplify_entry] in H. inv_bind H as l Hl.
    injection H as <-.
    destruct (mapM_nth _ _ _ _ _ Hl Hn) as (e' & He' & Hn').
    destruct (IH e e' He' d text Hp Hd) as (t & Ht & Hout).
    exists t. split; [exact Ht |]. cbn [map get_path]. now rewrite Hn'.
Qed.

(** C3, the counterexample: an object that is the payload itself, or the
    value of a key of another object, is returned as it is even though it
    has the text field; no output field is written. *)
Lemma payload_object_not_simplified :
  let self := default_adapter (limit_only 22) in
  let template := JDict [(chars "text", JStr (chars "KYC form required."))] in
  let wrapped := JDict [(chars "template", template)] in
  (simplify_payload self template = Ok template /\
   ~ simplified_at self template template []) /\
  (simplify_payload self wrapped = Ok wrapped /\
   ~ simplified_at self wrapped wrapped [Key (chars "template")]).
Proof.
  cbv zeta. split; (split; [vm_compute; reflexivity |]).
  - intros H. destruct (H _ _ eq_refl eq_refl) as (t & _ & E).
    vm_compute in E. discriminate E.
  - intros H. destruct (H _ _ eq_refl eq_refl) as (t & _ & E).
    vm_compute in E. discriminate E.
Qed.

Lemma key_path_container (v : json) (keys : list str) (d : dict) :
  get_path v (map Key keys) = Some (JDict d) -> _is_container v = true.
Proof.
  destruct keys as [| k keys].
  - cbn. intros H; now injection H as ->.
  - apply get_path_nonempty_container. discriminate.
Qed.

(** An object that [simplify_payload] itself goes through, the payload or
    a value reached through keys only: its keys stay, its values that are
    not containers stay, and its containers go through [simplify_payload]. *)
Lemma simplify_payload_at_keys (self : JsonSimplifier) (keys : list str) :
  forall (payload out : json) (d : dict),
    simplify_payload self payload = Ok out ->
    get_path payload (map Key keys) = Some (JDict d) ->
    exists d',
      get_path out (map Key keys) = Some (JDict d') /\
      map fst d' = map fst d /\
      (forall k v,
          dict_get k d = Some v -> _is_container v = false ->
          dict_get k d' = Some v) /\
      (forall k v,
          dict_get k d = Some v -> _is_container v = true ->
          exists v', simplify_payload self v = Ok v' /\ dict_get k d' = Some v').
Proof.
  induction keys as [| k keys IH]; intros payload out d H Hp.
  - cbn in Hp. injection Hp as ->.
    cbn [simplify_payload] in H. inv_bind H as d' Hd'. injection H as <-.
    exists d'. split; [reflexivity |]. split; [| split].
    + now apply (payload_fields_keys self).
    + intros k v Hg Hc.
      destruct (payload_fields_get self d d' k v Hd' Hg) as (v' & Hv' & Hg').
      rewrite Hc in Hv'. now injection Hv' as <-.
    + intros k v Hg Hc.
      destruct (payload_fields_get self d d' k v Hd' Hg) as (v' & Hv' & Hg').
      rewrite Hc in Hv'. now exists v'.
  - cbn [map get_path] in Hp.
    destruct payload as [| | | | | | fields]; try discriminate.
    destruct (dict_get k fields) as [v |] eqn:Hv; [| discriminate].
    cbn [simplify_payload] in H. inv_bind H as d0 Hd0. injection H as <-.
    destruct (payload_fields_get self fields d0 k v Hd0 Hv) as (v' & Hv' & Hg).
    rewrite (key_path_container v keys d Hp) in Hv'.
    destruct (IH v v' d Hv' Hp) as (d' & Hout & Hrest).
    exists d'. split; [| exact Hrest].
    cbn [map get_path]. now rewrite Hg.
Qed.

(** C3 (as amended): [simplify_payload] simplifies every object that has
    the text field with a string in it and that is a list entry, the list
    being the payload, or the value reached from the payload through keys
    of objects, or a list nested in such a list.  The simplified text is
    written under the output field of that same object.  An object that is
    the payload itself, or that is reached from it through keys of objects
    only, is not simplified: it comes back at the same place with the same
    keys, in the same order, its values that are not containers unchanged
    and its containers passed through [simplify_payload]; no output field
    is added to it. *)
Theorem simplify_payload_list_entries :
  (forall (self : JsonSimplifier) (keys : list str) (i : nat)
          (indices : list nat) (payload out : json),
      simplify_payload self payload = Ok out ->
      simplified_at self payload out (entry_path keys i indices)) /\
  (forall (self : JsonSimplifier) (keys : list str) (payload out : json)
          (d : dict),
      simplify_payload self payload = Ok out ->
      get_path payload (map Key keys) = Some (JDict d) ->
      exists d',
        get_path out (map Key keys) = Some (JDict d') /\
        map fst d' = map fst d /\
        (forall k v,
            dict_get k d = Some v -> _is_container v = false ->
            dict_get k d' = Some v) /\
        (forall k v,
            dict_get k d = Some v -> _is_container v = true ->
            exists v', simplify_payload self v = Ok v' /\
                       dict_get k d' = Some v')).
Proof.
  split.
  - intros self keys i indices.
    induction keys as [| k keys IH]; intros payload out H.
    + unfold entry_path. cbn [map app].
      intros d text Hp Hd.
      destruct payload as [| | | | | items |]; try discriminate.
      now apply (simplify_entry_at self (i :: indices) (JList items) out H).
    + intros d text Hp Hd. unfold entry_path in *. cbn [map app get_path] in Hp.
      destruct payload as [| | | | | | fields]; try discriminate.
      destruct (dict_get k fields) as [v |] eqn:Hv; [| discriminate].
      cbn [simplify_payload] in H. inv_bind H as d' Hd'.
      injection H as <-.
      destruct (payload_fields_get self fields d' k v Hd' Hv) as (v' & Hv' & Hg).
      rewrite (get_path_nonempty_container v (JDict d)
                 (map Key keys ++ map Index (i :: indices))) in Hv';
        [| now destruct keys | exact Hp].
      destruct (IH v v' Hv' d text Hp Hd) as (t & Ht & Hout).
      exists t. split; [exact Ht |]. cbn [map app get_path]. now rewrite Hg.
  - intros self keys payload out d. apply simplify_payload_at_keys.
Qed.

(** A template in the list under the key [templates]. *)
Lemma simplify_payload_list_entries_witness :
  simplified_at (default_adapter (limit_only 22))
    (JDict [(chars "templates",
             JList [JDict [(chars "text", JStr (chars "KYC form required"))]])])
    (JDict [(chars "templates",
             JList [JDict [(chars "text", JStr (chars "KYC form required"));
                           (chars "simplified_text",
                            JStr (chars "KYC form required."))]])])
    (entry_path [chars "templates"] 0 []).
Proof.
  apply (proj1 simplify_payload_list_entries (default_adapter (limit_only 22))
           [chars "templates"] 0 []).
  vm_compute. reflexivity.
Defined.

(** C7, the counterexample: when the output field is configured to be the
    text field, the text is overwritten by its simplification. *)
Lemma same_field_overwrites_text :
  _simplify_entry
    {| simplifier := limit_only 22;
       text_field := chars "text"; output_field := chars "text" |}
    (JDict [(chars "text", JStr (chars "KYC form required"))])
  = Ok (JDict [(chars "text", JStr (chars "KYC form required."))]).
Proof. vm_compute. reflexivity. Qed.

(** C7 (as amended): for an object entry that has the text field, a value
    that is not a string raises [TypeError]; for a string whose
    simplification is [t], the entry comes back with [t] under the output
    field and every field other than the output field as it was, hence
    the text field too when the two field names differ.  With the default
    names, [[{"text": "KYC form required."}]] gets the new field
    ["simplified_text"] after ["text"].  The fields keep their order, and
    an output field that is new goes last. *)
Theorem simplify_entry_contract :
  (forall (self : JsonSimplifier) (d : dict) (original : json),
      dict_get (text_field self) d = Some original ->
      (is_str original = false ->
       _simplify_entry self (JDict d) = Raise TypeError) /\
      (forall text t,
          original = JStr text ->
          simplify_text (simplifier self) text = Ok t ->
          exists d',
            _simplify_entry self (JDict d) = Ok (JDict d') /\
            dict_get (output_field self) d' = Some (JStr t) /\
            (forall k, k <> output_field self -> dict_get k d' = dict_get k d) /\
            (text_field self <> output_field self ->
             dict_get (text_field self) d' = Some (JStr text)) /\
            map fst d' =
            (if existsb (str_eqb (output_field self)) (map fst d)
             then map fst d else map fst d ++ [output_field self]))) /\
  (forall (engine : EmailSimplifier) (t : str),
      simplify_text engine (chars "KYC form required.") = Ok t ->
      simplify_payload (default_adapter engine)
        (JList [JDict [(chars "text", JStr (chars "KYC form required."))]])
      = Ok (JList [JDict [(chars "text", JStr (chars "KYC form required."));
                          (chars "simplified_text", JStr t)]])).
Proof.
  split.
  - intros self d original Hg. split.
    + intros Hs. cbn [_simplify_entry]. rewrite Hg.
      destruct original; try reflexivity. discriminate Hs.
    + intros text t -> Ht.
      exists (dict_set (output_field self) (JStr t) d).
      split; [| split; [| split; [| split]]].
      * cbn [_simplify_entry]. now rewrite Hg, Ht.
      * apply dict_get_set_same.
      * intros k Hk. now apply dict_get_set_other.
      * intros Hne. now rewrite dict_get_set_other.
      * apply dict_set_keys.
  - intros engine t Ht.
    cbn [simplify_payload mapM _simplify_entry default_adapter
         text_field output_field simplifier].
    change (dict_get (chars "text")
              [(chars "text", JStr (chars "KYC form required."))])
      with (Some (JStr (chars "KYC form required."))).
    cbv beta iota. rewrite Ht. reflexivity.
Qed.

(** An entry whose text field holds a number. *)
Lemma simplify_entry_contract_witness :
  _simplify_entry (default_adapter (limit_only 22))
    (JDict [(chars "text", JInt 7)]) = Raise TypeError.
Proof.
  apply (proj1 (proj1 simplify_entry_contract
                  (default_adapter (limit_only 22))
                  [(chars "text", JInt 7)] (JInt 7) eq_refl)).
  reflexivity.
Defined.

(** * Further properties of the engine *)

(** ** When [simplify_text] raises *)

Lemma bind_raise {A B : Type} (r : result A) (k : A -> result B) (e : exn) :
  bind r k = Raise e -> r = Raise e \/ exists a, r = Ok a /\ k a = Raise e.
Proof. destruct r as [a | e']; simpl; [eauto | intros H; left; congruence]. Qed.

(** The tail of a template after [\g<]: the local function of
    [parse_template], as an equation. *)
Lemma parse_group_raise (r : str) :
  (forall r' e, List.length r' <= List.length r ->
                parse_template r' = Raise e -> e = SubError) ->
  forall seen e,
    (fix group_name (seen : bool) (r : str) : result template :=
       match r with
       | [] => Raise SubError
       | d :: r' =>
         if Ascii.eqb d ">" then
           if seen then t <- parse_template r' ;; Ok (TMatch :: t)
           else Raise SubError
         else if Ascii.eqb d "0" then group_name true r'
         else Raise SubError
       end) seen r = Raise e ->
    e = SubError.
Proof.
  induction r as [| d r IH]; intros Hrec seen e H.
  - now injection H as <-.
  - destruct (Ascii.eqb d ">").
    + destruct seen; [| now injection H as <-].
      apply bind_raise in H as [H | (a & _ & H)]; [| discriminate].
      apply (Hrec r e); [simpl; lia | exact H].
    + destruct (Ascii.eqb d "0"); [| now injection H as <-].
      apply (IH (fun r' e' Hl => Hrec r' e' (Nat.le_trans _ _ _ Hl (Nat.le_succ_diag_r _)))
                true e H).
Qed.

Ltac raise_step H Hrec :=
  match type of H with
  | Raise _ = Raise _ => injection H as <-; reflexivity
  | Ok _ = Raise _ => discriminate H
  | bind (parse_template ?r) _ = Raise _ =>
      apply bind_raise in H as [H | (? & _ & H)];
      [apply (Hrec r _); [simpl; lia | exact H] | discriminate H]
  | (fix group_name (seen : bool) (r : str) {struct r} : result template := _)
      _ ?r2 = Raise _ =>
      apply (parse_group_raise r2) in H; [exact H |];
      let r' := fresh "r" in
      let e' := fresh "e" in
      let Hl := fresh "Hl" in
      intros r' e' Hl; apply (Hrec r' e'); simpl; lia
  | (if ?b then _ else _) = Raise _ => destruct b
  | match ?x with _ => _ end = Raise _ => destruct x
  end.

Lemma parse_template_raise_upto (n : nat) :
  forall s e,
    List.length s <= n -> parse_template s = Raise e -> e = SubError.
Proof.
  induction n as [| n IH]; intros s e Hl H.
  - destruct s; [discriminate | simpl in Hl; lia].
  - destruct s as [| c0 r0]; [discriminate |].
    cbn [List.length] in Hl.
    assert (Hrec : forall r' e', List.length r' <= List.length r0 ->
                                 parse_template r' = Raise e' -> e' = SubError)
      by (intros r' e' Hr; apply IH; lia).
    clear IH. cbn [parse_template] in H.
    repeat raise_step H Hrec.
Qed.

(** The only exception of the template parser is [SubError]. *)
Lemma parse_template_raise (s : str) (e : exn) :
  parse_template s = Raise e -> e = SubError.
Proof. apply (parse_template_raise_upto (List.length s)). lia. Qed.

Lemma re_sub_compiles (p : regex) (repl text : str) :
  compiles repl = true -> exists o, re_sub p repl text = Ok o.
Proof.
  unfold compiles, re_sub. destruct (parse_template repl); [| discriminate].
  intros _. eexists; reflexivity.
Qed.

Lemma re_sub_not_compiles (p : regex) (repl text : str) :
  compiles repl = false -> re_sub p repl text = Raise SubError.
Proof.
  unfold compiles, re_sub.
  destruct (parse_template repl) as [t | e] eqn:E; [discriminate |].
  intros _. now rewrite (parse_template_raise repl e E).
Qed.

(** A pass of [re.sub] calls returns when every replacement compiles and
    raises otherwise, whatever the text is. *)
Lemma for_each_sub {A : Type} (P : A -> regex) (R : A -> str)
    (body : A -> str -> result str) (l : list A) :
  (forall x t, body x t = re_sub (P x) (R x) t) ->
  forall text,
    if forallb (fun x => compiles (R x)) l
    then exists o, for_each l body text = Ok o
    else for_each l body text = Raise SubError.
Proof.
  intros Hb. induction l as [| x l IH]; intros text; cbn [forallb for_each].
  - eexists; reflexivity.
  - rewrite Hb. destruct (compiles (R x)) eqn:Hc; cbn [andb].
    + destruct (re_sub_compiles (P x) (R x) text Hc) as (o & ->). cbn [bind].
      apply IH.
    + now rewrite (re_sub_not_compiles (P x) (R x) text Hc).
Qed.

Lemma word_map_sub (m : list (str * str)) (text : str) :
  if forallb (fun rule => compiles (snd rule)) m
  then exists o, _apply_word_map text m = Ok o
  else _apply_word_map text m = Raise SubError.
Proof.
  apply (for_each_sub (fun rule => word_re (fst rule)) snd).
  now intros [raw simple] t.
Qed.

Lemma patterns_sub (ps : list pattern) (text : str) :
  if forallb (fun p => compiles (replace p)) ps
  then exists o, _apply_patterns text ps = Ok o
  else _apply_patterns text ps = Raise SubError.
Proof.
  apply (for_each_sub (fun p => escaped (search p)) replace). reflexivity.
Qed.

Lemma substitution_passes_sub (self : EmailSimplifier) (text : str) :
  if rules_compile self
  then exists o, substitution_passes self text = Ok o
  else substitution_passes self text = Raise SubError.
Proof.
  unfold rules_compile, substitution_passes, _apply_kyc_doc_rules.
  rewrite normalize_ws_eq. cbn [bind].
  pose proof (word_map_sub (jargon_map self) (strip (squeeze false text))) as H1.
  destruct (forallb _ (jargon_map self)); cbn [andb];
    [destruct H1 as (t1 & ->); cbn [bind] | now rewrite H1].
  pose proof (word_map_sub (tone_map self) t1) as H2.
  destruct (forallb _ (tone_map self)); cbn [andb];
    [destruct H2 as (t2 & ->); cbn [bind] | now rewrite H2].
  pose proof (patterns_sub (patterns self) t2) as H3.
  destruct (forallb _ (patterns self)); cbn [andb];
    [destruct H3 as (t3 & ->); cbn [bind] | now rewrite H3].
  apply (word_map_sub (kyc_documents self) t3).
Qed.

Lemma plain_compiles (repl : str) :
  contains "\" repl = false -> compiles repl = true.
Proof. intros H. unfold compiles. now rewrite parse_template_plain. Qed.

Lemma plain_rules_compile (self : EmailSimplifier) :
  plain_rules self = true -> rules_compile self = true.
Proof.
  unfold plain_rules, rules_compile. intros H.
  repeat (apply andb_prop in H as [H ?]).
  repeat (apply andb_true_intro; split);
    apply forallb_forall; intros x Hx; apply plain_compiles, negb_true_iff;
    match goal with
    | Hf : forallb _ ?l = true, Hin : In x ?l |- _ =>
        exact (proj1 (forallb_forall _ l) Hf x Hin)
    end.
Qed.

(** ** The result is whitespace-normalized *)

Lemma starts_rev_strip (s : str) : starts_with_space (rev (strip s)) = false.
Proof.
  unfold strip, rstrip. rewrite rev_involutive. apply lstrip_starts.
Qed.

(** X2: a result of [simplify_text] is in whitespace normal form: each
    whitespace character in it is one SPACE between two other characters,
    it neither starts nor ends with whitespace, and normalizing it again
    changes nothing. *)
Theorem simplify_text_normalized (self : EmailSimplifier) (s o : str) :
  simplify_text self s = Ok o ->
  single_spaced o = true /\
  starts_with_space o = false /\
  starts_with_space (rev o) = false /\
  normalize_ws o = Ok o.
Proof.
  rewrite simplify_text_unfold. destruct s as [| c s]; cbn [is_empty].
  - intros H; injection H as <-. repeat split; reflexivity.
  - intros H. inv_bind H as t. rewrite normalize_ws_eq in H. injection H as <-.
    set (x := squeeze false (_rewrite_sentences self t)).
    assert (Hs : single_spaced (strip x) = true)
      by apply single_spaced_strip, single_spaced_squeeze.
    repeat split.
    + exact Hs.
    + unfold strip. apply rstrip_starts, lstrip_starts.
    + apply starts_rev_strip.
    + rewrite normalize_ws_eq, (squeeze_fixed _ Hs). now rewrite strip_idem.
Qed.

Lemma simplify_text_normalized_witness :
  normalize_ws (chars "Hello there.") = Ok (chars "Hello there.").
Proof.
  apply (simplify_text_normalized (limit_only 22)
           (chars "  Hello   there ") (chars "Hello there.")).
  vm_compute. reflexivity.
Defined.

(** ** Rule terms and letter case *)

Lemma match_here_ci (p p' : regex) :
  Forall2 atom_ci p p' ->
  forall prev s, match_here p prev s = match_here p' prev s.
Proof.
  induction 1 as [| a a' p p' Ha Hp IH]; intros prev s; [reflexivity |].
  destruct Ha as [c c' Hc | a].
  - cbn [match_here]. destruct s as [| x s]; [reflexivity |].
    unfold ci_eqb. rewrite Hc. now rewrite IH.
  - destruct a; cbn [match_here].
    + destruct s as [| x s]; [reflexivity |]. now rewrite IH.
    + now rewrite IH.
    + destruct (span isspace s); [reflexivity |]. now rewrite IH.
    + destruct prev; [| reflexivity]. now rewrite IH.
Qed.

Lemma escaped_ci (raw raw' : str) :
  map lower raw = map lower raw' -> Forall2 atom_ci (escaped raw) (escaped raw').
Proof.
  unfold escaped. revert raw'.
  induction raw as [| c raw IH]; intros [| c' raw'] H; try discriminate.
  - constructor.
  - cbn [map] in *. injection H as Hc Hr.
    constructor; [now constructor | now apply IH].
Qed.

Lemma word_re_ci (raw raw' : str) :
  map lower raw = map lower raw' -> Forall2 atom_ci (word_re raw) (word_re raw').
Proof.
  intros H. unfold word_re. constructor; [apply atom_ci_same |].
  apply Forall2_app; [now apply escaped_ci |].
  constructor; [apply atom_ci_same | constructor].
Qed.

Lemma sub_scan_ext (p p' : regex) (t : template) :
  (forall prev s, match_here p prev s = match_here p' prev s) ->
  forall s skip prev, sub_scan p t skip prev s = sub_scan p' t skip prev s.
Proof.
  intros Hm. induction s as [| c s IH]; intros skip prev.
  - destruct skip; cbn [sub_scan]; [now rewrite Hm | reflexivity].
  - destruct skip; cbn [sub_scan]; [| apply IH].
    rewrite Hm. destruct (match_here p' prev (c :: s)) as [[| k] |];
      now rewrite IH.
Qed.

Lemma re_sub_ci (p p' : regex) (repl text : str) :
  Forall2 atom_ci p p' -> re_sub p repl text = re_sub p' repl text.
Proof.
  intros H. unfold re_sub. destruct (parse_template repl); [| reflexivity].
  cbn [bind]. f_equal. apply sub_scan_ext, match_here_ci, H.
Qed.

(** X3: the terms of the rules are matched without regard to letter case:
    a word map, and a list of patterns, whose terms are written in another
    letter case gives the same result on every text. *)
Theorem rule_terms_ignore_case :
  (forall (m m' : list (str * str)) (text : str),
      Forall2 same_rule_ci m m' ->
      _apply_word_map text m = _apply_word_map text m') /\
  (forall (ps ps' : list pattern) (text : str),
      Forall2 same_pattern_ci ps ps' ->
      _apply_patterns text ps = _apply_patterns text ps').
Proof.
  split.
  - intros m m' text H. revert text. unfold _apply_word_map.
    induction H as [| [raw simple] [raw' simple'] m m' [Hk Hv] Hm IH];
      intros text; [reflexivity |].
    cbn [for_each]. cbn [fst snd] in Hk, Hv. subst simple'.
    rewrite (re_sub_ci (word_re raw) (word_re raw')); [| now apply word_re_ci].
    destruct (re_sub _ _ _); [apply IH | reflexivity].
  - intros ps ps' text H. revert text. unfold _apply_patterns.
    induction H as [| p p' ps ps' [Hk Hv] Hp IH]; intros text; [reflexivity |].
    cbn [for_each]. rewrite Hv.
    rewrite (re_sub_ci (escaped (search p)) (escaped (search p')));
      [| now apply escaped_ci].
    destruct (re_sub _ _ _); [apply IH | reflexivity].
Qed.

Lemma rule_terms_ignore_case_witness :
  _apply_word_map (chars "Your kyc form") [(chars "KYC", chars "identity check")]
  = _apply_word_map (chars "Your kyc form") [(chars "Kyc", chars "identity check")].
Proof.
  apply (proj1 rule_terms_ignore_case).
  repeat constructor.
Defined.

(** ** A term that does not occur *)

Lemma ci_occurs_cons (raw : str) (c : ascii) (s : str) :
  ci_occurs raw (c :: s) = false ->
  ci_prefix raw (c :: s) = false /\ ci_occurs raw s = false.
Proof. cbn [ci_occurs]. apply orb_false_elim. Qed.

Lemma ci_occurs_nil (raw : str) :
  ci_occurs raw [] = false -> ci_prefix raw [] = false.
Proof. cbn [ci_occurs]. now rewrite orb_false_r. Qed.

Lemma sub_scan_absent (p : regex) (raw : str) (t : template) :
  (forall prev s, ci_prefix raw s = false -> match_here p prev s = None) ->
  forall s prev, ci_occurs raw s = false -> sub_scan p t 0 prev s = s.
Proof.
  intros Hm. induction s as [| c s IH]; intros prev H; cbn [sub_scan].
  - now rewrite (Hm prev [] (ci_occurs_nil raw H)).
  - apply ci_occurs_cons in H as [Hp Hs].
    rewrite (Hm prev (c :: s) Hp). now rewrite IH.
Qed.

Lemma re_sub_escaped_absent (srch repl text : str) :
  compiles repl = true -> ci_occurs srch text = false ->
  re_sub (escaped srch) repl text = Ok text.
Proof.
  unfold compiles, re_sub. destruct (parse_template repl) as [t |]; [| discriminate].
  intros _ H. cbn [bind]. f_equal. apply (sub_scan_absent _ srch); [| exact H].
  intros prev s Hp. now rewrite match_escaped, Hp.
Qed.

Lemma re_sub_word_absent (raw repl text : str) :
  compiles repl = true -> ci_occurs raw text = false ->
  re_sub (word_re raw) repl text = Ok text.
Proof.
  unfold compiles, re_sub. destruct (parse_template repl) as [t |]; [| discriminate].
  intros _ H. cbn [bind]. f_equal. apply (sub_scan_absent _ raw); [| exact H].
  intros prev s Hp. rewrite match_word. unfold whole_word_here.
  now rewrite Hp, andb_false_r.
Qed.

(** X4: a rule whose term occurs nowhere in the text, not even inside a
    word and letter case apart, leaves the text as it is: a pass all of
    whose terms are absent from the text, and all of whose replacements
    compile, returns the text unchanged. *)
Theorem absent_terms_change_nothing :
  (forall (m : list (str * str)) (text : str),
      Forall (fun rule => compiles (snd rule) = true /\
                          ci_occurs (fst rule) text = false) m ->
      _apply_word_map text m = Ok text) /\
  (forall (ps : list pattern) (text : str),
      Forall (fun p => compiles (replace p) = true /\
                       ci_occurs (search p) text = false) ps ->
      _apply_patterns text ps = Ok text).
Proof.
  split.
  - intros m text H. unfold _apply_word_map.
    induction H as [| [raw simple] m [Hc Ho] Hm IH]; [reflexivity |].
    cbn [for_each]. cbn [fst snd] in Hc, Ho.
    now rewrite (re_sub_word_absent raw simple text Hc Ho).
  - intros ps text H. unfold _apply_patterns.
    induction H as [| p ps [Hc Ho] Hp IH]; [reflexivity |].
    cbn [for_each]. now rewrite (re_sub_escaped_absent _ _ text Hc Ho).
Qed.

Lemma absent_terms_change_nothing_witness :
  _apply_word_map (chars "Please sign the form.")
    [(chars "kyc", chars "identity check"); (chars "aml", chars "fraud check")]
  = Ok (chars "Please sign the form.").
Proof.
  apply (proj1 absent_terms_change_nothing).
  repeat constructor.
Defined.

(** ** The empty search string *)

Lemma sub_scan_empty_search (repl : str) (s : str) :
  forall prev,
    sub_scan (escaped []) (map TLit repl) 0 prev s =
    repl ++ flat_map (fun c => c :: repl) s.
Proof.
  induction s as [| c s IH]; intros prev; cbn [escaped map sub_scan match_here].
  - cbn [firstn flat_map]. now rewrite expand_plain.
  - cbn [firstn flat_map]. rewrite expand_plain, IH. reflexivity.
Qed.

(** X5: a pattern whose [search] is the empty string matches at every
    position: its replacement (here one without backslash) is inserted
    before the first character, between every two characters and after
    the last one, and no character of the text is removed. *)
Theorem empty_search_inserts_everywhere (repl text : str) :
  contains "\" repl = false ->
  _apply_patterns text [{| search := []; replace := repl |}] =
  Ok (repl ++ flat_map (fun c => c :: repl) text).
Proof.
  intros H. unfold _apply_patterns. cbn [for_each search replace].
  unfold re_sub. rewrite (parse_template_plain repl H). cbn [bind].
  f_equal. apply sub_scan_empty_search.
Qed.

Lemma empty_search_inserts_everywhere_witness :
  _apply_patterns (chars "ab") [{| search := []; replace := chars "-" |}]
  = Ok (chars "-a-b-").
Proof.
  apply (empty_search_inserts_everywhere (chars "-") (chars "ab")).
  reflexivity.
Defined.

(** ** What the sentence rewrite keeps *)

Lemma content_app (a b : str) : content (a ++ b) = content a ++ content b.
Proof. apply filter_app. Qed.

Lemma content_filler (c : ascii) (s : str) :
  is_filler c = true -> content (c :: s) = content s.
Proof. intros H. unfold content. cbn [filter]. now rewrite H. Qed.

Lemma content_space (c : ascii) (s : str) :
  isspace c = true -> content (c :: s) = content s.
Proof. intros H. apply content_filler. unfold is_filler. now rewrite H. Qed.

Lemma content_lstrip (s : str) : content (lstrip s) = content s.
Proof.
  induction s as [| c s IH]; [reflexivity |]. cbn [lstrip].
  destruct (isspace c) eqn:Hc; [| reflexivity].
  now rewrite IH, (content_space c s Hc).
Qed.

Lemma content_rev (s : str) : content (rev s) = rev (content s).
Proof.
  induction s as [| c s IH]; [reflexivity |].
  cbn [rev]. rewrite content_app, IH. unfold content at 2 3. cbn [filter].
  destruct (negb (is_filler c)); cbn [rev app]; [reflexivity | now rewrite app_nil_r].
Qed.

Lemma content_strip (s : str) : content (strip s) = content s.
Proof.
  unfold strip, rstrip.
  now rewrite content_rev, content_lstrip, content_rev, rev_involutive,
    content_lstrip.
Qed.

Lemma content_dot (s : str) : content (s ++ chars ".") = content s.
Proof. rewrite content_app. cbn. apply app_nil_r. Qed.

Lemma content_join (sep : str) (l : list str) :
  content sep = [] -> content (join sep l) = List.concat (map content l).
Proof.
  intros Hsep. induction l as [| x l IH]; [reflexivity |].
  cbn [join map List.concat]. destruct l as [| y l].
  - cbn. now rewrite app_nil_r.
  - now rewrite !content_app, Hsep, IH.
Qed.

Lemma content_push (c : ascii) (l : list str) :
  List.concat (map content (push c l)) = content [c] ++ List.concat (map content l).
Proof.
  destruct l as [| x l]; cbn [push map List.concat].
  - reflexivity.
  - change (c :: x) with ([c] ++ x). now rewrite content_app, app_assoc.
Qed.

Lemma content_split_on_comma (s : str) :
  List.concat (map content (split_on "," s)) = content s.
Proof.
  induction s as [| c s IH]; [reflexivity |]. cbn [split_on].
  destruct (Ascii.eqb c ",") eqn:Hc.
  - cbn [map List.concat]. rewrite IH. symmetry. apply content_filler.
    unfold is_filler. now rewrite Hc, orb_true_r.
  - rewrite content_push, IH. change (c :: s) with ([c] ++ s).
    now rewrite content_app.
Qed.

Lemma content_map_strip (l : list str) :
  List.concat (map content (map strip l)) = List.concat (map content l).
Proof.
  induction l as [| x l IH]; [reflexivity |].
  cbn [map List.concat]. now rewrite content_strip, IH.
Qed.

(** A sentence split consumes whitespace only. *)
Lemma content_split_scan (s : str) :
  forall skip prev,
    skip <= span isspace s ->
    List.concat (map content (split_scan sentence_re skip prev s)) = content s.
Proof.
  induction s as [| c s IH]; intros skip prev Hk.
  - destruct skip; cbn [split_scan]; [| reflexivity].
    destruct (match_here sentence_re prev []) as [n |] eqn:Hm; [| reflexivity].
    apply match_sentence in Hm as [Hn Hn0]. cbn in Hn. congruence.
  - cbn [span] in Hk. destruct skip as [| k]; cbn [split_scan].
    + destruct (match_here sentence_re prev (c :: s)) as [n |] eqn:Hm.
      * apply match_sentence in Hm as [Hn Hn0]. cbn [span] in Hn.
        destruct (isspace c) eqn:Hc; [| congruence]. subst n.
        cbn [map List.concat]. rewrite IH by lia.
        symmetry. apply (content_space c s Hc).
      * rewrite content_push, IH by lia.
        change (c :: s) with ([c] ++ s). now rewrite content_app.
    + destruct (isspace c) eqn:Hc; [| lia].
      rewrite IH by lia. symmetry. apply (content_space c s Hc).
Qed.

Lemma content_hd_tl (l : list str) :
  content (hd [] l) ++ List.concat (map content (tl l)) = List.concat (map content l).
Proof. destruct l; reflexivity. Qed.

Lemma content_rewrite_sentence (limit : Z) (cleaned : list str) (s0 : str) :
  List.concat (map content (rewrite_sentence limit cleaned s0)) =
  List.concat (map content cleaned) ++ content s0.
Proof.
  unfold rewrite_sentence. rewrite <- (content_strip s0).
  destruct (strip s0) as [| c s] eqn:E; cbn [is_empty].
  - cbn. now rewrite app_nil_r.
  - rewrite <- E. clear E.
    set (parts := map strip (split_on "," (strip s0))).
    assert (Hparts : List.concat (map content parts) = content (strip s0))
      by (unfold parts; now rewrite content_map_strip, content_split_on_comma).
    destruct (_ && _).
    + destruct (1 <? List.length parts) eqn:Hl.
      * rewrite !map_app, !concat_app. cbn [map List.concat].
        rewrite !content_dot, !app_nil_r, <- app_assoc.
        rewrite (content_join (chars ", ") (tl parts) eq_refl).
        now rewrite content_hd_tl, Hparts.
      * rewrite map_app, concat_app. cbn [map List.concat].
        rewrite content_dot, app_nil_r. f_equal.
        rewrite <- Hparts. destruct parts as [| p [| q parts]]; cbn.
        -- reflexivity.
        -- now rewrite app_nil_r.
        -- cbn in Hl. discriminate Hl.
    + rewrite map_app, concat_app. cbn [map List.concat]. rewrite app_nil_r.
      f_equal. destruct (ends_with_terminator (strip s0)); [reflexivity |].
      apply content_dot.
Qed.

Lemma content_fold_rewrite (limit : Z) (sentences : list str) :
  forall cleaned,
    List.concat (map content (fold_left (rewrite_sentence limit) sentences cleaned)) =
    List.concat (map content cleaned) ++ List.concat (map content sentences).
Proof.
  induction sentences as [| s0 l IH]; intros cleaned; cbn [fold_left map List.concat].
  - now rewrite app_nil_r.
  - now rewrite IH, content_rewrite_sentence, app_assoc.
Qed.

Lemma content_rewrite_sentences (self : EmailSimplifier) (text : str) :
  content (_rewrite_sentences self text) = content text.
Proof.
  unfold _rewrite_sentences, re_split.
  rewrite (content_join (chars " ") _ eq_refl), content_fold_rewrite.
  cbn [map List.concat app]. apply content_split_scan. lia.
Qed.

Lemma content_squeeze (s : str) (b : bool) : content (squeeze b s) = content s.
Proof.
  revert b. induction s as [| c s IH]; intros b; [reflexivity |].
  cbn [squeeze]. destruct (isspace c) eqn:Hc.
  - rewrite (content_space c s Hc).
    destruct b; [apply IH | rewrite (content_space " " _ eq_refl); apply IH].
  - change (c :: squeeze false s) with ([c] ++ squeeze false s).
    change (c :: s) with ([c] ++ s). now rewrite !content_app, IH.
Qed.

(** X6: the sentence rewrite adds and drops nothing but whitespace, commas
    and periods: every other character of the text comes out, in the same
    order.  With empty rule tables this holds for [simplify_text] as a
    whole. *)
Theorem sentence_rewrite_keeps_content :
  (forall (self : EmailSimplifier) (text : str),
      content (_rewrite_sentences self text) = content text) /\
  (forall (self : EmailSimplifier) (s o : str),
      no_rules self -> simplify_text self s = Ok o -> content o = content s).
Proof.
  split; [apply content_rewrite_sentences |].
  intros self s o (Hj & Ht & Hp & Hk). unfold simplify_text, _apply_kyc_doc_rules.
  rewrite Hj, Ht, Hp, Hk. destruct (is_empty s).
  - now intros H; injection H as <-.
  - rewrite !normalize_ws_eq. cbn [bind _apply_word_map _apply_patterns for_each].
    rewrite normalize_ws_eq. intros H; injection H as <-.
    now rewrite content_strip, content_squeeze, content_rewrite_sentences,
      content_strip, content_squeeze.
Qed.

Lemma sentence_rewrite_keeps_content_witness :
  content (chars "One. two three.. Four!") = content (chars " One ,two   three.  Four! ").
Proof.
  apply (proj2 sentence_rewrite_keeps_content (limit_only 1)
           (chars " One ,two   three.  Four! ") (chars "One. two three.. Four!")).
  - repeat split.
  - vm_compute. reflexivity.
Defined.

(** ** The split of a long sentence *)

Lemma split_on_first (sep : ascii) (s : str) :
  exists first rest,
    split_on sep s = first :: rest /\ contains sep first = false /\
    (contains sep s = true -> rest <> []).
Proof.
  induction s as [| c s (first & rest & E & Hf & Hr)].
  - exists [], []. repeat split. discriminate.
  - cbn [split_on]. destruct (Ascii.eqb c sep) eqn:Hc.
    + exists [], (split_on sep s). repeat split. intros _. rewrite E. discriminate.
    + rewrite E. exists (c :: first), rest. cbn [push contains existsb].
      fold (contains sep first). fold (contains sep s).
      rewrite Ascii.eqb_sym in Hc. rewrite Hc, Hf. repeat split. exact Hr.
Qed.

(** X7: a candidate over the limit that holds a comma always gives exactly
    two sentences, however many commas it has: the text before the first
    comma, which holds no comma, and all the rest in one sentence, each
    with a period appended.  The test [len(parts) > 1] of the loop never
    fails. *)
Theorem split_emits_two_sentences (limit : Z) (cleaned : list str) (s0 : str) :
  strip s0 <> [] ->
  (limit < Z.of_nat (List.length (str_split (strip s0))))%Z ->
  contains "," (strip s0) = true ->
  exists first rest,
    map strip (split_on "," (strip s0)) = first :: rest /\
    rest <> [] /\ contains "," first = false /\
    rewrite_sentence limit cleaned s0 =
    cleaned ++ [first ++ chars "."; join (chars ", ") rest ++ chars "."].
Proof.
  intros Hne Hl Hc. unfold rewrite_sentence.
  destruct (split_on_first "," (strip s0)) as (first & rest & E & Hf & Hr).
  specialize (Hr Hc).
  exists (strip first), (map strip rest). rewrite E. cbn [map].
  split; [reflexivity |]. split; [now destruct rest |].
  split; [now apply contains_strip |].
  destruct (strip s0) as [| c s]; [congruence |]. cbn [is_empty].
  rewrite (proj2 (Z.ltb_lt _ _) Hl), Hc. cbn [andb hd tl List.length].
  destruct rest as [| r rest]; [congruence |]. cbn [map List.length Nat.ltb Nat.leb].
  now rewrite <- app_assoc.
Qed.

Lemma split_emits_two_sentences_witness :
  exists first rest,
    map strip (split_on "," (strip (chars "a, b, c d"))) = first :: rest /\
    rest <> [] /\ contains "," first = false /\
    rewrite_sentence 2 [] (chars "a, b, c d") =
    [] ++ [first ++ chars "."; join (chars ", ") rest ++ chars "."].
Proof.
  apply (split_emits_two_sentences 2 [] (chars "a, b, c d")).
  - vm_compute. discriminate.
  - vm_compute. reflexivity.
  - reflexivity.
Defined.

(** * Further properties of the JSON adapter *)

(** Induction on a payload, with the hypothesis for every entry of a list
    and every value of an object. *)
Lemma json_nested_ind (P : json -> Prop) :
  P JNull ->
  (forall b, P (JBool b)) ->
  (forall n, P (JInt n)) ->
  (forall bits, P (JFloat bits)) ->
  (forall s, P (JStr s)) ->
  (forall items, Forall P items -> P (JList items)) ->
  (forall fields, Forall (fun kv => P (snd kv)) fields -> P (JDict fields)) ->
  forall v, P v.
Proof.
  intros HN HB HI HF HS HL HD.
  fix IH 1. intros [| b | n | bits | s | items | fields];
    [exact HN | apply HB | apply HI | apply HF | apply HS | |].
  - apply HL. induction items as [| x items IHl]; constructor; [apply IH | exact IHl].
  - apply HD. induction fields as [| [k v] fields IHl];
      constructor; [apply IH | exact IHl].
Qed.

Lemma mapM_id {A : Type} (f : A -> result A) (l : list A) :
  Forall (fun x => f x = Ok x) l -> mapM f l = Ok l.
Proof.
  induction 1 as [| x l Hx Hl IH]; cbn [mapM]; [reflexivity |].
  now rewrite Hx, IH.
Qed.

Lemma mapM_Forall2 {A B : Type} (f : A -> result B) (l : list A) (l' : list B) :
  mapM f l = Ok l' -> Forall2 (fun a b => f a = Ok b) l l'.
Proof.
  revert l'. induction l as [| x l IH]; intros l' H; cbn [mapM] in H.
  - injection H as <-. constructor.
  - apply bind_ok in H as (b & Hb & H). apply bind_ok in H as (bs & Hbs & H).
    injection H as <-. constructor; [exact Hb | now apply IH].
Qed.

Lemma dict_get_absent (k : str) (d : dict) :
  existsb (fun kv : str * json =>
             let (k', v') := kv in str_eqb k k' || mentions k v') d = false ->
  dict_get k d = None.
Proof.
  induction d as [| [k' v'] d IH]; cbn [existsb dict_get]; [reflexivity |].
  intros H. apply orb_false_elim in H as [H Hd].
  apply orb_false_elim in H as [-> _]. auto.
Qed.

(** X8: a payload in which no object, at any depth, has the text field
    comes back as it is; the engine is not called, so this holds for every
    rule set. *)
Theorem payload_without_text_field_unchanged (self : JsonSimplifier) (payload : json) :
  mentions (text_field self) payload = false ->
  simplify_payload self payload = Ok payload.
Proof.
  enough (H : forall v,
             mentions (text_field self) v = false ->
             _simplify_entry self v = Ok v /\ simplify_payload self v = Ok v)
    by (intros Hm; apply (H payload Hm)).
  induction v as [| b | n | bits | s | items IH | fields IH] using json_nested_ind;
    intros Hm; try (split; reflexivity).
  - cbn [mentions] in Hm.
    assert (He : mapM (_simplify_entry self) items = Ok items).
    { apply mapM_id. induction IH as [| x items Hx Hl IHl]; constructor.
      - cbn [existsb] in Hm. apply orb_false_elim in Hm as [Hm _].
        apply (Hx Hm).
      - cbn [existsb] in Hm. apply orb_false_elim in Hm as [_ Hm]. auto. }
    cbn [_simplify_entry simplify_payload]. rewrite He. split; reflexivity.
  - cbn [mentions] in Hm. split.
    + cbn [_simplify_entry]. now rewrite (dict_get_absent _ _ Hm).
    + cbn [simplify_payload]. rewrite mapM_id; [reflexivity |].
      induction IH as [| [k v] fields Hx Hl IHl]; constructor.
      * cbn [existsb] in Hm. apply orb_false_elim in Hm as [Hm _].
        apply orb_false_elim in Hm as [_ Hm]. cbn [snd] in Hx.
        destruct (_is_container v); [| reflexivity].
        now rewrite (proj2 (Hx Hm)).
      * cbn [existsb] in Hm. apply orb_false_elim in Hm as [_ Hm]. auto.
Qed.

Lemma payload_without_text_field_unchanged_witness :
  simplify_payload
    {| simplifier := jargon_only [(chars "kyc", chars "C:\docs")] 22;
       text_field := chars "text"; output_field := chars "simplified_text" |}
    (JList [JDict [(chars "body", JStr (chars "KYC form"))]; JInt 3])
  = Ok (JList [JDict [(chars "body", JStr (chars "KYC form"))]; JInt 3]).
Proof.
  apply payload_without_text_field_unchanged. reflexivity.
Defined.

(** ** Only the output field changes *)

Lemma erase_fields_set (k : str) (v : json) (d : dict) :
  flat_map (fun kv : str * json =>
              let (k', v') := kv in
              if str_eqb k k' then [] else [(k', erase k v')])
    (dict_set k v d) =
  flat_map (fun kv : str * json =>
              let (k', v') := kv in
              if str_eqb k k' then [] else [(k', erase k v')]) d.
Proof.
  induction d as [| [k' v'] d IH]; cbn [dict_set flat_map].
  - now rewrite (proj2 (str_eqb_eq k k) eq_refl).
  - destruct (str_eqb k k') eqn:E; cbn [flat_map]; rewrite E; [reflexivity |].
    now rewrite IH.
Qed.

Lemma simplify_erase (self : JsonSimplifier) (v : json) :
  forall out,
    (_simplify_entry self v = Ok out ->
     erase (output_field self) out = erase (output_field self) v) /\
    (simplify_payload self v = Ok out ->
     erase (output_field self) out = erase (output_field self) v).
Proof.
  induction v as [| b | n | bits | s | items IH | fields IH] using json_nested_ind;
    intros out;
    try (split; intros H; injection H as <-; reflexivity).
  - assert (He : forall l, mapM (_simplify_entry self) items = Ok l ->
                           map (erase (output_field self)) l =
                           map (erase (output_field self)) items).
    { intros l H. apply mapM_Forall2 in H.
      induction H as [| x y l0 l' Hxy Hl IHl]; [reflexivity |].
      inversion IH as [| ? ? Hx Hrest]; subst. cbn [map].
      rewrite (proj1 (Hx y) Hxy). f_equal. now apply IHl. }
    split; intros H; cbn [_simplify_entry simplify_payload] in H;
      inv_bind H as l Hl; injection H as <-; cbn [erase]; f_equal;
      now apply He.
  - split; intros H.
    + cbn [_simplify_entry] in H.
      destruct (dict_get (text_field self) fields) as [original |];
        [| now injection H as <-].
      destruct original; try discriminate H.
      inv_bind H as t Ht. injection H as <-.
      cbn [erase]. f_equal. apply erase_fields_set.
    + cbn [simplify_payload] in H. inv_bind H as d' Hd'. injection H as <-.
      cbn [erase]. f_equal. apply mapM_Forall2 in Hd'.
      induction Hd' as [| [k v] [k' v'] l l' Hxy Hl IHl]; [reflexivity |].
      inversion IH as [| ? ? Hx Hrest]; subst. cbn [flat_map snd] in *.
      rewrite (IHl Hrest). f_equal.
      destruct (_is_container v).
      * apply bind_ok in Hxy as (w & Hw & Hxy). injection Hxy as <- <-.
        now rewrite (proj2 (Hx w) Hw).
      * now injection Hxy as <- <-.
Qed.

(** X9: [simplify_payload] touches output fields only: the payload and
    the returned document are the same once the output field is taken out
    of every object of both.  So no list is reordered or resized and no
    other field, at any depth, is added, dropped or changed. *)
Theorem simplify_payload_frame (self : JsonSimplifier) (payload out : json) :
  simplify_payload self payload = Ok out ->
  erase (output_field self) out = erase (output_field self) payload.
Proof. apply simplify_erase. Qed.

Lemma simplify_payload_frame_witness :
  erase (chars "simplified_text")
    (JDict [(chars "id", JInt 7);
            (chars "templates",
             JList [JDict [(chars "text", JStr (chars "KYC form required"));
                           (chars "simplified_text",
                            JStr (chars "KYC form required."))]])])
  = erase (chars "simplified_text")
      (JDict [(chars "id", JInt 7);
              (chars "templates",
               JList [JDict [(chars "text", JStr (chars "KYC form required"))]])]).
Proof.
  apply (simplify_payload_frame (default_adapter (limit_only 22))).
  vm_compute. reflexivity.
Defined.

(** ** Running the adapter on its own output *)

Lemma dict_set_idem (k : str) (v : json) (d : dict) :
  dict_set k v (dict_set k v d) = dict_set k v d.
Proof.
  induction d as [| [k' v'] d IH]; cbn [dict_set].
  - now rewrite (proj2 (str_eqb_eq k k) eq_refl).
  - destruct (str_eqb k k') eqn:E; cbn [dict_set]; rewrite E; [reflexivity |].
    now rewrite IH.
Qed.

Lemma simplify_payload_container (self : JsonSimplifier) (v v' : json) :
  simplify_payload self v = Ok v' -> _is_container v' = _is_container v.
Proof.
  destruct v; cbn [simplify_payload]; intros H;
    try (injection H as <-; reflexivity);
    inv_bind H as l Hl; now injection H as <-.
Qed.

Lemma simplify_again (self : JsonSimplifier) (v : json) :
  text_field self <> output_field self ->
  forall out,
    (_simplify_entry self v = Ok out -> _simplify_entry self out = Ok out) /\
    (simplify_payload self v = Ok out -> simplify_payload self out = Ok out).
Proof.
  intros Hne.
  induction v as [| b | n | bits | s | items IH | fields IH] using json_nested_ind;
    intros out;
    try (split; intros H; injection H as <-; reflexivity).
  - assert (He : forall l, mapM (_simplify_entry self) items = Ok l ->
                           mapM (_simplify_entry self) l = Ok l).
    { intros l H. apply mapM_id. apply mapM_Forall2 in H.
      induction H as [| x y l0 l' Hxy Hl IHl]; constructor.
      - inversion IH as [| ? ? Hx Hrest]; subst. apply (proj1 (Hx y) Hxy).
      - inversion IH as [| ? ? Hx Hrest]; subst. now apply IHl. }
    split; intros H; cbn [_simplify_entry simplify_payload] in H;
      inv_bind H as l Hl; injection H as <-;
      cbn [_simplify_entry simplify_payload]; now rewrite (He l Hl).
  - split; intros H.
    + cbn [_simplify_entry] in H.
      destruct (dict_get (text_field self) fields) as [original |] eqn:Hg.
      * destruct original; try discriminate H.
        inv_bind H as t Ht. injection H as <-.
        cbn [_simplify_entry].
        rewrite (dict_get_set_other _ _ _ _ Hne), Hg, Ht. cbn [bind].
        now rewrite dict_set_idem.
      * injection H as <-. cbn [_simplify_entry]. now rewrite Hg.
    + cbn [simplify_payload] in H. inv_bind H as d' Hd'. injection H as <-.
      cbn [simplify_payload]. rewrite mapM_id; [reflexivity |].
      apply mapM_Forall2 in Hd'.
      induction Hd' as [| [k v] [k' v'] l l' Hxy Hl IHl]; constructor.
      * inversion IH as [| ? ? Hx Hrest]; subst. cbn [snd] in Hx.
        destruct (_is_container v) eqn:Hc.
        -- apply bind_ok in Hxy as (w & Hw & Hxy). injection Hxy as <- <-.
           rewrite (simplify_payload_container self v w Hw), Hc.
           now rewrite (proj2 (Hx w) Hw).
        -- injection Hxy as <- <-. now rewrite Hc.
      * inversion IH as [| ? ? Hx Hrest]; subst. now apply IHl.
Qed.

(** X10: when the output field is not the text field, a document that
    [simplify_payload] returned goes through [simplify_payload] unchanged:
    every output field is computed again from the same text and written
    over itself. *)
Theorem simplify_payload_idempotent (self : JsonSimplifier) (payload out : json) :
  text_field self <> output_field self ->
  simplify_payload self payload = Ok out ->
  simplify_payload self out = Ok out.
Proof. intros Hne. now apply simplify_again. Qed.

Lemma simplify_payload_idempotent_witness :
  simplify_payload (default_adapter (limit_only 22))
    (JList [JDict [(chars "text", JStr (chars "KYC form required"));
                   (chars "simplified_text", JStr (chars "KYC form required."))]])
  = Ok (JList [JDict [(chars "text", JStr (chars "KYC form required"));
                      (chars "simplified_text",
                       JStr (chars "KYC form required."))]]).
Proof.
  apply (simplify_payload_idempotent (default_adapter (limit_only 22))
           (JList [JDict [(chars "text", JStr (chars "KYC form required"))]])).
  - vm_compute. discriminate.
  - vm_compute. reflexivity.
Defined.

(** ** The exceptions of the adapter *)

Lemma simplify_text_when_compiles (engine : EmailSimplifier) (s : str) :
  rules_compile engine = true -> exists o, simplify_text engine s = Ok o.
Proof.
  intros H. rewrite simplify_text_unfold.
  destruct (is_empty s); [eexists; reflexivity |].
  pose proof (substitution_passes_sub engine s) as Hs. rewrite H in Hs.
  destruct Hs as (t & ->). cbn [bind]. rewrite normalize_ws_eq.
  eexists; reflexivity.
Qed.

Lemma mapM_raise_kind {A B : Type} (f : A -> result B) (l : list A) (E e : exn) :
  Forall (fun x => forall e', f x = Raise e' -> e' = E) l ->
  mapM f l = Raise e -> e = E.
Proof.
  induction 1 as [| x l Hx Hl IH]; cbn [mapM]; [discriminate |].
  intros H. apply bind_raise in H as [H | (b & _ & H)]; [now apply Hx |].
  apply bind_raise in H as [H | (bs & _ & H)]; [now apply IH | discriminate].
Qed.

Lemma mapM_raise_at {A B : Type} (f : A -> result B) (l : list A) (E : exn)
    (i : nat) (a : A) :
  (forall x e', f x = Raise e' -> e' = E) ->
  nth_error l i = Some a -> f a = Raise E -> mapM f l = Raise E.
Proof.
  intros Hk. revert i. induction l as [| x l IH]; intros i Hn Ha.
  - destruct i; discriminate.
  - cbn [mapM]. destruct i as [| i]; cbn [nth_error] in Hn.
    + injection Hn as ->. now rewrite Ha.
    + destruct (f x) as [b | e'] eqn:Hx; cbn [bind].
      * now rewrite (IH i Hn Ha).
      * now rewrite (Hk x e' Hx).
Qed.

Lemma dict_get_nth (k : str) (d : dict) (v : json) :
  dict_get k d = Some v -> exists i k', nth_error d i = Some (k', v).
Proof.
  induction d as [| [k' v'] d IH]; cbn [dict_get]; [discriminate |].
  destruct (str_eqb k k').
  - intros H; injection H as <-. now exists 0, k'.
  - intros H. destruct (IH H) as (i & k0 & Hi). now exists (S i), k0.
Qed.

Lemma simplify_raise_kind (self : JsonSimplifier) (v : json) :
  rules_compile (simplifier self) = true ->
  forall e,
    (_simplify_entry self v = Raise e -> e = TypeError) /\
    (simplify_payload self v = Raise e -> e = TypeError).
Proof.
  intros Hc.
  induction v as [| b | n | bits | s | items IH | fields IH] using json_nested_ind;
    intros e; try (split; discriminate).
  - assert (He : mapM (_simplify_entry self) items = Raise e -> e = TypeError).
    { apply mapM_raise_kind. eapply Forall_impl; [| exact IH].
      intros x Hx e'. apply (Hx e'). }
    split; intros H; cbn [_simplify_entry simplify_payload] in H;
      apply bind_raise in H as [H | (l & _ & H)];
      (now apply He) || discriminate.
  - split; intros H.
    + cbn [_simplify_entry] in H.
      destruct (dict_get (text_field self) fields) as [original |];
        [| discriminate].
      destruct original; try (now injection H as <-).
      destruct (simplify_text_when_compiles (simplifier self) s Hc) as (o & Ho).
      rewrite Ho in H. discriminate.
    + cbn [simplify_payload] in H.
      apply bind_raise in H as [H | (l & _ & H)]; [| discriminate].
      revert H. apply mapM_raise_kind. eapply Forall_impl; [| exact IH].
      intros [k v] Hx e' H. cbn [snd] in Hx.
      destruct (_is_container v); [| discriminate].
      apply bind_raise in H as [H | (w & _ & H)]; [| discriminate].
      now apply (Hx e').
Qed.

Lemma simplify_entry_type_error (self : JsonSimplifier) (indices : list nat)
    (d : dict) (original : json) :
  rules_compile (simplifier self) = true ->
  dict_get (text_field self) d = Some original -> is_str original = false ->
  forall entry,
    get_path entry (map Index indices) = Some (JDict d) ->
    _simplify_entry self entry = Raise TypeError.
Proof.
  intros Hc Hd Hs. induction indices as [| i indices IH]; intros entry Hp.
  - cbn in Hp. injection Hp as ->. cbn [_simplify_entry]. rewrite Hd.
    destruct original; try reflexivity. discriminate Hs.
  - cbn [map get_path] in Hp.
    destruct entry as [| | | | | items |]; try discriminate.
    destruct (nth_error items i) as [x |] eqn:Hn; [| discriminate].
    cbn [_simplify_entry].
    rewrite (mapM_raise_at (_simplify_entry self) items TypeError i x);
      [reflexivity | | exact Hn | now apply IH].
    intros y e'. apply (simplify_raise_kind self y Hc e').
Qed.

(** X11: with a rule set all of whose replacements compile, the only
    exception that [simplify_payload] raises is the type error, and it
    raises it whenever some list entry, at a position that the adapter
    visits, holds under the text field a value that is not a string,
    whatever the other entries hold. *)
Theorem payload_type_error (self : JsonSimplifier) :
  rules_compile (simplifier self) = true ->
  (forall payload e, simplify_payload self payload = Raise e -> e = TypeError) /\
  (forall payload keys i indices d original,
      get_path payload (entry_path keys i indices) = Some (JDict d) ->
      dict_get (text_field self) d = Some original ->
      is_str original = false ->
      simplify_payload self payload = Raise TypeError).
Proof.
  intros Hc. split.
  - intros payload e. apply (simplify_raise_kind self payload Hc e).
  - intros payload keys i indices d original Hp Hd Hs. revert payload Hp.
    induction keys as [| k keys IH]; intros payload Hp; unfold entry_path in *.
    + cbn [map app] in Hp.
      destruct payload as [| | | | | items |]; try discriminate.
      apply (simplify_entry_type_error self (i :: indices) d original Hc Hd Hs
               (JList items) Hp).
    + cbn [map app get_path] in Hp.
      destruct payload as [| | | | | | fields]; try discriminate.
      destruct (dict_get k fields) as [v |] eqn:Hv; [| discriminate].
      destruct (dict_get_nth k fields v Hv) as (j & k' & Hj).
      cbn [simplify_payload].
      rewrite (mapM_raise_at _ fields TypeError j (k', v)); [reflexivity | | exact Hj |].
      * intros [k0 v0] e' H. destruct (_is_container v0); [| discriminate].
        apply bind_raise in H as [H | (w & _ & H)]; [| discriminate].
        apply (simplify_raise_kind self v0 Hc e'). exact H.
      * rewrite (get_path_nonempty_container v (JDict d)
                   (map Key keys ++ map Index (i :: indices)));
          [| now destruct keys | exact Hp].
        now rewrite (IH v Hp).
Qed.

Lemma payload_type_error_witness :
  simplify_payload (default_adapter (limit_only 22))
    (JDict [(chars "templates",
             JList [JDict [(chars "text", JStr (chars "fine"))];
                    JDict [(chars "text", JInt 7)]])])
  = Raise TypeError.
Proof.
  apply (proj2 (payload_type_error (default_adapter (limit_only 22)) eq_refl)
           _ [chars "templates"] 1 [] [(chars "text", JInt 7)] (JInt 7));
    reflexivity.
Defined.

(** * Simplifying a simplified text *)

Lemma match_sentence_eq (prev : option ascii) (s : str) :
  match_here sentence_re prev s =
  if after_terminator prev
  then match span isspace s with 0 => None | S k => Some (S k) end
  else None.
Proof.
  unfold sentence_re, after_terminator; cbn [match_here].
  destruct prev as [p |]; [| reflexivity].
  destruct (is_terminator p); [| reflexivity].
  destruct (span isspace s); [reflexivity |].
  cbn [option_map]. now rewrite Nat.add_0_r.
Qed.

Lemma match_sentence_quiet (prev : option ascii) (c : ascii) (s : str) :
  after_terminator prev && isspace c = false ->
  match_here sentence_re prev (c :: s) = None.
Proof.
  intros H. rewrite match_sentence_eq. cbn [span].
  destruct (after_terminator prev); [| reflexivity].
  cbn [andb] in H. now rewrite H.
Qed.

Lemma push_prepend (c : ascii) (x : str) (pieces : list str) :
  push c (prepend x pieces) = prepend (c :: x) pieces.
Proof. destruct pieces; reflexivity. Qed.

(** Through a stretch without sentence boundary the split goes on with
    the same piece. *)
Lemma split_scan_quiet (x y : str) :
  forall prev,
    quiet prev x = true ->
    split_scan sentence_re 0 prev (x ++ y) =
    prepend x (split_scan sentence_re 0 (last_before prev x) y).
Proof.
  induction x as [| c x IH]; intros prev H.
  - cbn [app last_before prepend].
    destruct (split_scan sentence_re 0 prev y) as [| h t] eqn:E; [| reflexivity].
    exfalso. revert E. clear. destruct y as [| d y]; cbn [split_scan].
    + destruct (match_here sentence_re prev []); discriminate.
    + destruct (match_here sentence_re prev (d :: y)) as [[| k] |];
        try discriminate;
        destruct (split_scan sentence_re 0 (Some d) y); discriminate.
  - cbn [quiet] in H. apply andb_prop in H as [Hc Hx].
    apply negb_true_iff in Hc.
    cbn [app split_scan last_before].
    rewrite (match_sentence_quiet prev c (x ++ y) Hc), (IH (Some c) Hx).
    apply push_prepend.
Qed.

Lemma quiet_weaken (prev : option ascii) (x : str) :
  quiet prev x = true -> quiet None x = true.
Proof.
  destruct x as [| c x]; [reflexivity |]. cbn [quiet after_terminator andb negb].
  intros H. now apply andb_prop in H as [_ ->].
Qed.

Lemma quiet_any (prev : option ascii) (x : str) :
  starts_with_space x = false -> quiet None x = true -> quiet prev x = true.
Proof.
  destruct x as [| c x]; [reflexivity |]. cbn [quiet starts_with_space].
  intros -> H. now rewrite andb_false_r.
Qed.

Lemma quiet_app (a b : str) :
  forall prev,
    quiet prev (a ++ b) = quiet prev a && quiet (last_before prev a) b.
Proof.
  induction a as [| c a IH]; intros prev; [reflexivity |].
  cbn [app quiet last_before]. now rewrite IH, andb_assoc.
Qed.

Lemma quiet_segment (x s : str) :
  segment x s -> quiet None s = true -> quiet None x = true.
Proof.
  intros (pre & post & ->) H.
  rewrite quiet_app in H. apply andb_prop in H as [_ H].
  rewrite quiet_app in H. apply andb_prop in H as [H _].
  now apply quiet_weaken in H.
Qed.

Lemma single_spaced_segment (x s : str) :
  segment x s -> single_spaced s = true -> single_spaced x = true.
Proof.
  intros (pre & post & ->) H.
  apply single_spaced_suffix in H. now apply single_spaced_prefix in H.
Qed.

Lemma contains_segment (c : ascii) (x s : str) :
  segment x s -> contains c s = false -> contains c x = false.
Proof.
  intros (pre & post & ->) H.
  rewrite !contains_app in H. apply orb_false_elim in H as [_ H].
  now apply orb_false_elim in H as [H _].
Qed.

Lemma strip_segment (x : str) : segment (strip x) x.
Proof.
  unfold strip.
  destruct (lstrip_suffix x) as [pre Hpre].
  destruct (rstrip_prefix (lstrip x)) as [post Hpost].
  exists pre, post. now rewrite <- Hpost.
Qed.

Lemma segment_trans (a b c : str) : segment a b -> segment b c -> segment a c.
Proof.
  intros (p1 & q1 & ->) (p2 & q2 & ->).
  exists (p2 ++ p1), (q1 ++ q2). now rewrite <- !app_assoc.
Qed.

Lemma segment_cons (x s : str) (c : ascii) : segment x s -> segment x (c :: s).
Proof. intros (pre & post & ->). now exists (c :: pre), post. Qed.

(** Every piece of a split is a run of consecutive characters of the text,
    and the first piece, outside a match, is a prefix of it. *)
Lemma split_scan_segments (p : regex) (s : str) :
  forall skip prev,
    Forall (fun x => segment x s) (split_scan p skip prev s) /\
    (skip = 0 ->
     exists x xs post, split_scan p 0 prev s = x :: xs /\ s = x ++ post).
Proof.
  induction s as [| c s IH]; intros skip prev.
  - assert (N : segment [] []) by now exists [], [].
    split.
    + destruct skip; cbn [split_scan]; [| now constructor].
      destruct (match_here p prev []); repeat constructor; exact N.
    + intros _. cbn [split_scan].
      destruct (match_here p prev []); do 3 eexists; split; reflexivity.
  - assert (E : segment [] (c :: s)) by now exists [], (c :: s).
    assert (Hpush : forall prev',
               Forall (fun x => segment x (c :: s))
                 (push c (split_scan p 0 prev' s)) /\
               exists x xs post,
                 push c (split_scan p 0 prev' s) = x :: xs /\ c :: s = x ++ post).
    { intros prev'. destruct (IH 0 prev') as [Hall Hhd].
      destruct (Hhd eq_refl) as (x & xs & post & Ex & Es).
      rewrite Ex in Hall |- *. cbn [push].
      pose proof (Forall_inv_tail Hall) as Htl. split.
      - constructor; [exists [], post; now rewrite Es |].
        eapply Forall_impl; [| exact Htl]. intros a. apply segment_cons.
      - exists (c :: x), xs, post. now rewrite Es at 1. }
    assert (Hskip : forall k prev',
               Forall (fun x => segment x (c :: s)) (split_scan p k prev' s)).
    { intros k prev'. eapply Forall_impl; [| apply (IH k prev')].
      intros a. apply segment_cons. }
    split.
    + destruct skip as [| k]; cbn [split_scan]; [| apply Hskip].
      destruct (match_here p prev (c :: s)) as [[| k] |].
      * constructor; [exact E | apply Hpush].
      * constructor; [exact E | apply Hskip].
      * apply Hpush.
    + intros _. cbn [split_scan].
      destruct (match_here p prev (c :: s)) as [[| k] |].
      * do 3 eexists; split; reflexivity.
      * do 3 eexists; split; reflexivity.
      * apply Hpush.
Qed.

(** No piece of a sentence split holds a sentence boundary. *)
Lemma split_scan_quiet_pieces (s : str) :
  forall skip prev,
    Forall (fun x => quiet None x = true) (split_scan sentence_re skip prev s) /\
    (skip = 0 ->
     exists x xs, split_scan sentence_re 0 prev s = x :: xs /\
                  quiet prev x = true).
Proof.
  induction s as [| c s IH]; intros skip prev.
  - split.
    + destruct skip; cbn [split_scan]; [| now repeat constructor].
      destruct (match_here sentence_re prev []); now repeat constructor.
    + intros _. cbn [split_scan].
      destruct (match_here sentence_re prev []); do 2 eexists; split; reflexivity.
  - split.
    + destruct skip as [| k]; cbn [split_scan]; [| apply IH].
      destruct (match_here sentence_re prev (c :: s)) as [[| k] |] eqn:Hm.
      * apply match_sentence in Hm as [_ Hn]. congruence.
      * constructor; [reflexivity | apply IH].
      * destruct (IH 0 (Some c)) as [Hall Hhd].
        destruct (Hhd eq_refl) as (x & xs & Ex & Hq). rewrite Ex in *.
        inversion Hall; subst. cbn [push]. constructor; [| assumption].
        cbn [quiet after_terminator andb negb]. exact Hq.
    + intros _. cbn [split_scan].
      destruct (match_here sentence_re prev (c :: s)) as [[| k] |] eqn:Hm.
      * apply match_sentence in Hm as [_ Hn]. congruence.
      * do 2 eexists; split; reflexivity.
      * destruct (IH 0 (Some c)) as [_ Hhd].
        destruct (Hhd eq_refl) as (x & xs & Ex & Hq). rewrite Ex. cbn [push].
        exists (c :: x), xs. split; [reflexivity |].
        cbn [quiet]. rewrite Hq, andb_true_r.
        rewrite match_sentence_eq in Hm. cbn [span] in Hm.
        destruct (after_terminator prev); [| reflexivity].
        destruct (isspace c); [discriminate | reflexivity].
Qed.

Lemma single_spaced_snoc_solid (y : str) (c : ascii) :
  single_spaced y = true -> isspace c = false -> single_spaced (y ++ [c]) = true.
Proof.
  intros Hy Hc. induction y as [| d y IH]; cbn [app single_spaced].
  - now rewrite Hc.
  - cbn [single_spaced] in Hy. apply andb_prop in Hy as [Hd Hy].
    rewrite (IH Hy), andb_true_r.
    destruct (isspace d); [| reflexivity].
    apply andb_prop in Hd as [-> Hn]. cbn [andb].
    destruct y as [| e y]; [cbn; now rewrite Hc | exact Hn].
Qed.

Lemma single_spaced_after_solid (body : str) (p : ascii) (b : str) :
  single_spaced (body ++ [p]) = true -> isspace p = false ->
  single_spaced b = true -> single_spaced ((body ++ [p]) ++ b) = true.
Proof.
  intros Hx Hp Hb. induction body as [| d body IH]; cbn [app single_spaced] in *.
  - now rewrite Hp, Hb.
  - apply andb_prop in Hx as [Hd Hx]. rewrite (IH Hx), andb_true_r.
    destruct (isspace d); [| reflexivity].
    apply andb_prop in Hd as [-> Hn]. cbn [andb].
    destruct body as [| e body]; exact Hn.
Qed.

Lemma last_before_snoc (prev : option ascii) (body : str) (p : ascii) :
  last_before prev (body ++ [p]) = Some p.
Proof.
  revert prev. induction body as [| d body IH]; intros prev; [reflexivity |].
  apply IH.
Qed.

Lemma span_no_space (s : str) : starts_with_space s = false -> span isspace s = 0.
Proof. destruct s as [| c s]; [reflexivity |]. cbn. now intros ->. Qed.

Lemma sentence_body (x : str) :
  sentence x -> exists body p, x = body ++ [p] /\ is_terminator p = true.
Proof. intros (_ & He & _). now apply ends_with_terminator_spec. Qed.

Lemma strip_sentence (x : str) : sentence x -> strip x = x.
Proof.
  intros Hs. destruct (sentence_body x Hs) as (body & p & E & Hp).
  destruct Hs as (Hst & _). unfold strip. rewrite (lstrip_fixed x Hst), E.
  apply rstrip_solid_last, terminator_not_space, Hp.
Qed.

Lemma keep_sentence_good (cleaned : list str) (x : str) :
  single_spaced x = true -> quiet None x = true -> contains "," x = false ->
  exists added,
    keep_sentence cleaned x = cleaned ++ added /\ Forall sentence added.
Proof.
  intros Hs Hq Hc. unfold keep_sentence.
  pose proof (strip_segment x) as Hseg.
  pose proof (single_spaced_segment _ _ Hseg Hs) as Hs'.
  pose proof (quiet_segment _ _ Hseg Hq) as Hq'.
  pose proof (contains_segment "," _ _ Hseg Hc) as Hc'.
  assert (Hst : starts_with_space (strip x) = false)
    by (unfold strip; apply rstrip_starts, lstrip_starts).
  destruct (strip x) as [| c y] eqn:E; cbn [is_empty].
  - exists []. split; [now rewrite app_nil_r | constructor].
  - rewrite <- E in *. eexists. split; [reflexivity |].
    constructor; [| constructor].
    destruct (ends_with_terminator (strip x)) eqn:He.
    + repeat split; assumption.
    + repeat split.
      * rewrite E. cbn. rewrite E in Hst. exact Hst.
      * unfold ends_with_terminator. now rewrite rev_app_distr.
      * now apply single_spaced_snoc_solid.
      * rewrite quiet_app, Hq'. cbn. now rewrite andb_false_r.
      * now rewrite contains_app, Hc'.
Qed.

Lemma fold_keep_good (pieces : list str) :
  Forall (fun x => single_spaced x = true /\ quiet None x = true /\
                   contains "," x = false) pieces ->
  forall cleaned,
    Forall sentence cleaned ->
    Forall sentence (fold_left keep_sentence pieces cleaned).
Proof.
  induction 1 as [| x l (Hs & Hq & Hc) Hl IH]; intros cleaned Hcl; [exact Hcl |].
  cbn [fold_left]. apply IH.
  destruct (keep_sentence_good cleaned x Hs Hq Hc) as (added & -> & Ha).
  apply Forall_app. now split.
Qed.

Lemma fold_keep_sentences (L : list str) :
  Forall sentence L ->
  forall cleaned, fold_left keep_sentence L cleaned = cleaned ++ L.
Proof.
  induction 1 as [| x l Hx Hl IH]; intros cleaned; cbn [fold_left].
  - now rewrite app_nil_r.
  - rewrite IH. unfold keep_sentence. rewrite (strip_sentence x Hx).
    destruct Hx as (_ & He & _). rewrite He.
    destruct x as [| c x]; [discriminate He |]. cbn [is_empty].
    now rewrite <- app_assoc.
Qed.

(** The sentences joined by one SPACE: the text is in normal form and the
    sentence split gives the sentences back. *)
Lemma join_sentences (L : list str) :
  Forall sentence L -> L <> [] ->
  starts_with_space (join (chars " ") L) = false /\
  single_spaced (join (chars " ") L) = true /\
  terminated (join (chars " ") L) /\
  contains "," (join (chars " ") L) = false /\
  forall prev, split_scan sentence_re 0 prev (join (chars " ") L) = L.
Proof.
  induction 1 as [| x l Hx Hl IH]; intros Hne; [congruence |].
  destruct (sentence_body x Hx) as (body & p & E & Hp).
  pose proof Hx as (Hst & He & Hss & Hq & Hc).
  pose proof (terminator_not_space p Hp) as Hsp.
  cbn [join]. destruct l as [| y l].
  - repeat split; try assumption.
    + now exists body, p.
    + intros prev. rewrite <- (app_nil_r x) at 1.
      rewrite (split_scan_quiet x [] prev (quiet_any prev x Hst Hq)).
      cbn [split_scan]. rewrite match_sentence_eq. cbn [span].
      destruct (after_terminator _); cbn [prepend]; now rewrite app_nil_r.
  - destruct (IH ltac:(discriminate)) as (Jst & Jss & Jt & Jc & Jsplit).
    set (J := join (chars " ") (y :: l)) in *.
    repeat split.
    + destruct x as [| c x]; [discriminate He | exact Hst].
    + rewrite E. apply single_spaced_after_solid; [now rewrite <- E | exact Hsp |].
      cbn [chars list_ascii_of_string app single_spaced].
      rewrite space_is_space, Jst, Jss. reflexivity.
    + apply terminated_app, terminated_app, Jt.
    + rewrite !contains_app, Hc, Jc. reflexivity.
    + intros prev.
      rewrite (split_scan_quiet x _ prev (quiet_any prev x Hst Hq)).
      replace (last_before prev x) with (Some p)
        by (rewrite E; symmetry; apply last_before_snoc).
      cbn [chars list_ascii_of_string app split_scan].
      rewrite match_sentence_eq. cbn [after_terminator span]. rewrite Hp.
      rewrite space_is_space, (span_no_space J Jst), Jsplit.
      cbn [prepend]. now rewrite app_nil_r.
Qed.

Lemma normalize_ws_sentences (L : list str) :
  Forall sentence L -> L <> [] ->
  normalize_ws (join (chars " ") L) = Ok (join (chars " ") L).
Proof.
  intros HL Hne. destruct (join_sentences L HL Hne) as (Jst & Jss & Jt & _).
  rewrite normalize_ws_eq, (squeeze_fixed _ Jss). f_equal.
  destruct Jt as (body & p & E & Hp). unfold strip.
  rewrite (lstrip_fixed _ Jst), E.
  apply rstrip_solid_last, terminator_not_space, Hp.
Qed.

Lemma contains_squeeze (s : str) (b : bool) :
  contains "," s = false -> contains "," (squeeze b s) = false.
Proof.
  revert b. induction s as [| c s IH]; intros b; [reflexivity |].
  cbn [contains existsb]. fold (contains "," s). intros H.
  apply orb_false_elim in H as [Hc Hs]. cbn [squeeze].
  destruct (isspace c); [destruct b |]; cbn [contains existsb];
    fold (contains "," (squeeze true s)); fold (contains "," (squeeze false s));
    rewrite ?Hc, ?IH by assumption; reflexivity.
Qed.

Lemma substitution_passes_no_rules (self : EmailSimplifier) (s : str) :
  no_rules self -> substitution_passes self s = Ok (strip (squeeze false s)).
Proof.
  intros (Hj & Ht & Hp & Hk). unfold substitution_passes, _apply_kyc_doc_rules.
  now rewrite Hj, Ht, Hp, Hk, normalize_ws_eq.
Qed.

(** X12: with empty rule tables, simplifying a text without comma a second
    time changes nothing: the result of [simplify_text] goes through
    [simplify_text] unchanged. *)
Theorem simplify_text_idempotent_without_comma (self : EmailSimplifier) (s o : str) :
  no_rules self -> contains "," s = false ->
  simplify_text self s = Ok o -> simplify_text self o = Ok o.
Proof.
  intros Hn Hc H. rewrite simplify_text_unfold in H.
  destruct s as [| c0 s0]; cbn [is_empty] in H; [now injection H as <- |].
  rewrite (substitution_passes_no_rules self _ Hn) in H. cbn [bind] in H.
  set (t := strip (squeeze false (c0 :: s0))) in *.
  assert (Htc : contains "," t = false)
    by (apply contains_strip, contains_squeeze, Hc).
  assert (Hts : single_spaced t = true)
    by (apply single_spaced_strip, single_spaced_squeeze).
  rewrite (rewrite_sentences_no_comma self t Htc) in H.
  set (L := fold_left keep_sentence (re_split sentence_re t) []) in *.
  assert (HL : Forall sentence L).
  { apply fold_keep_good; [| constructor].
    pose proof (proj1 (split_scan_segments sentence_re t 0 None)) as Hseg.
    pose proof (proj1 (split_scan_quiet_pieces t 0 None)) as Hq.
    unfold re_split. apply Forall_forall. intros x Hx.
    rewrite Forall_forall in Hseg, Hq. repeat split.
    - apply (single_spaced_segment x t (Hseg x Hx) Hts).
    - apply (Hq x Hx).
    - apply (contains_segment "," x t (Hseg x Hx) Htc). }
  destruct L as [| x l] eqn:EL.
  - vm_compute in H. now injection H as <-.
  - rewrite <- EL in *. assert (Hne : L <> []) by (rewrite EL; discriminate).
    rewrite (normalize_ws_sentences L HL Hne) in H. injection H as <-.
    destruct (join_sentences L HL Hne) as (Jst & Jss & Jt & Jc & Jsplit).
    assert (Hem : is_empty (join (chars " ") L) = false).
    { apply terminated_nonempty in Jt.
      now destruct (join (chars " ") L). }
    change (join [" "%char] L) with (join (chars " ") L).
    rewrite simplify_text_unfold, Hem.
    rewrite (substitution_passes_no_rules self _ Hn). cbn [bind].
    assert (Hfix : strip (squeeze false (join (chars " ") L)) = join (chars " ") L).
    { pose proof (normalize_ws_sentences L HL Hne) as Hnorm.
      rewrite normalize_ws_eq in Hnorm. now injection Hnorm. }
    rewrite Hfix, (rewrite_sentences_no_comma self _ Jc).
    unfold re_split. rewrite Jsplit, (fold_keep_sentences L HL). cbn [app].
    now apply normalize_ws_sentences.
Qed.

Lemma simplify_text_idempotent_without_comma_witness :
  simplify_text (limit_only 2) (chars "send it now. Thank you.")
  = Ok (chars "send it now. Thank you.").
Proof.
  apply (simplify_text_idempotent_without_comma (limit_only 2)
           (chars " send   it now. Thank you")).
  - repeat split.
  - reflexivity.
  - vm_compute. reflexivity.
Defined.

(** ** Replacements that no version of the template parser accepts *)








(** ** Replacements that leave something to read *)

Lemma blank_app (a b : str) : blank (a ++ b) = blank a && blank b.
Proof. apply forallb_app. Qed.

(** A replacement without a backslash that is not blank: what [re.sub]
    makes of a text that is not blank is not blank either, since a match
    puts the replacement in and the characters outside matches stay. *)
Lemma sub_scan_solid (p : regex) (repl : str) :
  blank repl = false ->
  forall (s : str) (prev : option ascii),
    blank s = false -> blank (sub_scan p (map TLit repl) 0 prev s) = false.
Proof.
  intros Hr. induction s as [| c s IH]; intros prev H; [discriminate |].
  cbn [sub_scan]. destruct (match_here p prev (c :: s)) as [n |].
  - now rewrite expand_plain, blank_app, Hr.
  - cbn [blank forallb] in *. destruct (isspace c); [| reflexivity].
    cbn [andb] in *. now apply IH.
Qed.

Lemma re_sub_solid (p : regex) (repl text : str) :
  solid_repl repl = true -> blank text = false ->
  exists o, re_sub p repl text = Ok o /\ blank o = false.
Proof.
  unfold solid_repl. intros H Hb. apply andb_prop in H as [Hs Hn].
  apply negb_true_iff in Hs. apply negb_true_iff in Hn.
  unfold re_sub. rewrite (parse_template_plain repl Hs). cbn [bind].
  eexists; split; [reflexivity |]. now apply sub_scan_solid.
Qed.

Lemma for_each_solid {A : Type} (P : A -> regex) (R : A -> str)
    (body : A -> str -> result str) (l : list A) :
  (forall x t, body x t = re_sub (P x) (R x) t) ->
  forallb (fun x => solid_repl (R x)) l = true ->
  forall text,
    blank text = false ->
    exists o, for_each l body text = Ok o /\ blank o = false.
Proof.
  intros Hbody. induction l as [| x l IH]; intros Hl text Hb.
  - exists text. now split.
  - cbn [forallb] in Hl. apply andb_prop in Hl as [Hx Hl].
    cbn [for_each]. rewrite Hbody.
    destruct (re_sub_solid (P x) (R x) text Hx Hb) as (t & -> & Ht).
    cbn [bind]. now apply IH.
Qed.

Lemma word_map_solid (m : list (str * str)) (text : str) :
  forallb (fun rule => solid_repl (snd rule)) m = true ->
  blank text = false ->
  exists o, _apply_word_map text m = Ok o /\ blank o = false.
Proof.
  intros Hm. apply (for_each_solid (fun rule => word_re (fst rule)) snd);
    [now intros [raw simple] t | exact Hm].
Qed.

Lemma patterns_solid (ps : list pattern) (text : str) :
  forallb (fun p => solid_repl (replace p)) ps = true ->
  blank text = false ->
  exists o, _apply_patterns text ps = Ok o /\ blank o = false.
Proof.
  intros Hp. apply (for_each_solid (fun p => escaped (search p)) replace);
    [reflexivity | exact Hp].
Qed.

Lemma substitution_passes_solid (self : EmailSimplifier) (s : str) :
  solid_rules self = true -> blank s = false ->
  exists t, substitution_passes self s = Ok t /\ blank t = false.
Proof.
  unfold solid_rules. intros H Hb.
  apply andb_prop in H as [H Hk]. apply andb_prop in H as [H Hp].
  apply andb_prop in H as [Hj Ht].
  unfold substitution_passes, _apply_kyc_doc_rules.
  destruct (normalize_ws_solid s Hb) as (t1 & -> & H1). cbn [bind].
  destruct (word_map_solid (jargon_map self) t1 Hj H1) as (t2 & -> & H2).
  cbn [bind].
  destruct (word_map_solid (tone_map self) t2 Ht H2) as (t3 & -> & H3).
  cbn [bind].
  destruct (patterns_solid (patterns self) t3 Hp H3) as (t4 & -> & H4).
  cbn [bind].
  exact (word_map_solid (kyc_documents self) t4 Hk H4).
Qed.

Lemma simplify_text_solid (self : EmailSimplifier) (s : str) :
  solid_rules self = true -> blank s = false ->
  exists o, simplify_text self s = Ok o /\ terminated o.
Proof.
  intros H Hb. rewrite simplify_text_unfold.
  destruct s as [| c s]; [discriminate |]. cbn [is_empty].
  destruct (substitution_passes_solid self (c :: s) H Hb) as (t & -> & Ht).
  cbn [bind]. rewrite normalize_ws_eq. eexists; split; [reflexivity |].
  eapply normalize_ws_terminated; [| apply normalize_ws_eq].
  now apply rewrite_sentences_solid.
Qed.

Lemma solid_rules_plain (self : EmailSimplifier) :
  solid_rules self = true -> plain_rules self = true.
Proof.
  unfold solid_rules, plain_rules, solid_repl. intros H.
  repeat (apply andb_prop in H as [H ?]).
  repeat (apply andb_true_intro; split);
    apply forallb_forall; intros x Hx;
    match goal with
    | Hf : forallb _ ?l = true, Hin : In x ?l |- _ =>
        pose proof (proj1 (forallb_forall _ l) Hf x Hin) as Hs
    end;
    cbv beta in Hs; now apply andb_prop in Hs as [Hs _].
Qed.

Lemma no_rules_solid (self : EmailSimplifier) :
  no_rules self -> solid_rules self = true /\ searches_nonempty self.
Proof.
  unfold solid_rules, searches_nonempty.
  intros (-> & -> & -> & ->). split; [reflexivity | constructor].
Qed.

(** The proviso on backslashes is needed: the replacement [\n], two
    characters that are not blank, compiles to a line feed, and the text
    that is left is blank. *)
Lemma escape_replacement_gives_blank_text :
  simplify_text (jargon_only [(chars "x", chars "\n")] 22) (chars "x") = Ok []
  /\ blank (chars "\n") = false.
Proof. vm_compute. split; reflexivity. Qed.

(** C10 (as amended): a result of [simplify_text] is empty or ends in [.],
    [!] or [?], whatever the rule tables hold.  A blank input (empty or
    whitespace only) gives the empty result when no pattern has an empty
    search string.  An input that is not blank gives a result that is not
    empty when every replacement of the rule tables is free of backslashes
    and not blank.  When both hold of the rule tables, so in particular
    when they are empty, [simplify_text] returns and its result is empty
    exactly when the input is blank. *)
Theorem simplify_text_terminal_punctuation (self : EmailSimplifier) (s : str) :
  (forall o, simplify_text self s = Ok o ->
     (o = [] \/ terminated o) /\
     (blank s = true ->
      Forall (fun p => search p <> []) (patterns self) -> o = []) /\
     (blank s = false -> solid_rules self = true ->
      o <> [] /\ terminated o)) /\
  (solid_rules self = true -> searches_nonempty self ->
   exists o, simplify_text self s = Ok o /\ (o = [] <-> blank s = true)) /\
  (no_rules self ->
   exists o, simplify_text self s = Ok o /\ (o = [] <-> blank s = true)).
Proof.
  assert (Hiff : solid_rules self = true -> searches_nonempty self ->
                 exists o, simplify_text self s = Ok o /\
                           (o = [] <-> blank s = true)).
  { intros Hs Hp. destruct (blank s) eqn:Hb.
    - destruct (simplify_text_when_compiles self s
                  (plain_rules_compile self (solid_rules_plain self Hs)))
        as (o & Ho).
      exists o. split; [exact Ho |]. split; [reflexivity | intros _].
      now apply (simplify_text_blank self s o Hp Hb).
    - destruct (simplify_text_solid self s Hs Hb) as (o & Ho & Ht).
      exists o. split; [exact Ho |]. split; [| discriminate].
      intros E. now apply terminated_nonempty in Ht. }
  split; [| split].
  - intros o H. split; [| split].
    + eapply simplify_text_shape; exact H.
    + intros Hb Hp. eapply simplify_text_blank; eassumption.
    + intros Hb Hs. destruct (simplify_text_solid self s Hs Hb) as (o' & Ho & Ht).
      rewrite H in Ho. injection Ho as ->.
      split; [now apply terminated_nonempty | exact Ht].
  - exact Hiff.
  - intros H. destruct (no_rules_solid self H) as [Hs Hp]. now apply Hiff.
Qed.

(** A rule set with a jargon rule and a pattern, on a text that is not
    blank. *)
Lemma simplify_text_terminal_punctuation_witness :
  exists o,
    simplify_text
      {| jargon_map := [(chars "KYC", chars "identity check")];
         tone_map := [];
         patterns := [{| search := chars "asap"; replace := chars "soon" |}];
         kyc_documents := [];
         sentence_length_limit := 22 |}
      (chars "KYC asap") = Ok o /\
    (o = [] <-> blank (chars "KYC asap") = true).
Proof.
  apply (proj1 (proj2 (simplify_text_terminal_punctuation _ (chars "KYC asap")))).
  - reflexivity.
  - repeat constructor; discriminate.
Defined.

(** ** The sentence rewrite, candidate by candidate *)

Lemma is_terminator_true (p : ascii) :
  is_terminator p = true <-> p = "." \/ p = "!" \/ p = "?".
Proof.
  unfold is_terminator. rewrite !orb_true_iff, !Ascii.eqb_eq. tauto.
Qed.

Lemma is_terminator_false (p : ascii) :
  is_terminator p = false <-> p <> "." /\ p <> "!" /\ p <> "?".
Proof.
  unfold is_terminator. rewrite !orb_false_iff, !Ascii.eqb_neq. tauto.
Qed.

Lemma ends_with_terminator_snoc (body : str) (p : ascii) :
  ends_with_terminator (body ++ [p]) = is_terminator p.
Proof. unfold ends_with_terminator. now rewrite rev_unit. Qed.

Lemma keep_emitted_intact (s0 : str) :
  strip s0 <> [] ->
  emitted_intact s0
    (if ends_with_terminator (strip s0) then strip s0 else strip s0 ++ chars ".").
Proof.
  intros Hne. destruct (exists_last Hne) as (body & p & E).
  exists body, p. split; [exact E |].
  replace (ends_with_terminator (strip s0)) with (is_terminator p)
    by (rewrite E; symmetry; apply ends_with_terminator_snoc).
  destruct (is_terminator p) eqn:Hp.
  - left. split; [now apply is_terminator_true | reflexivity].
  - right. split; [now apply is_terminator_false | reflexivity].
Qed.

(** One turn of the loop adds to [cleaned] what [rewritten] says. *)
Lemma rewrite_sentence_rewritten (limit : Z) (cleaned : list str) (s0 : str) :
  exists outs,
    rewritten limit s0 outs /\
    rewrite_sentence limit cleaned s0 = cleaned ++ outs.
Proof.
  unfold rewrite_sentence, rewritten, split_triggers.
  destruct (strip s0) as [| c s] eqn:E.
  - exists []. split; [now left | now rewrite app_nil_r].
  - cbn [is_empty]. rewrite <- E.
    destruct (limit <? _)%Z eqn:Hl; cbn [andb];
      [destruct (contains "," (strip s0)) eqn:Hc |].
    + destruct (split_on_first "," (strip s0)) as (first & rest & Es & _ & Hr).
      specialize (Hr Hc).
      exists [strip first ++ chars ".";
              join (chars ", ") (map strip rest) ++ chars "."].
      split.
      * right; right. split; [split; [now apply Z.ltb_lt | reflexivity] |].
        exists (strip first), (map strip rest). rewrite Es.
        split; [reflexivity |]. split; [now destruct rest | reflexivity].
      * rewrite Es. cbn [map hd tl List.length].
        destruct rest as [| r rest]; [congruence |].
        cbn [map List.length Nat.ltb Nat.leb]. now rewrite <- app_assoc.
    + eexists. split; [| reflexivity].
      right; left. split; [rewrite E; discriminate |].
      split; [intros [_ H]; discriminate H |].
      eexists. split; [| reflexivity].
      apply keep_emitted_intact. rewrite E; discriminate.
    + eexists. split; [| reflexivity].
      right; left. split; [rewrite E; discriminate |].
      split; [intros [H _]; apply Z.ltb_lt in H; congruence |].
      eexists. split; [| reflexivity].
      apply keep_emitted_intact. rewrite E; discriminate.
Qed.

Lemma fold_rewrite_rewritten (limit : Z) (sentences : list str) :
  forall cleaned,
    exists outss,
      Forall2 (rewritten limit) sentences outss /\
      fold_left (rewrite_sentence limit) sentences cleaned =
      cleaned ++ List.concat outss.
Proof.
  induction sentences as [| s0 l IH]; intros cleaned.
  - exists []. split; [constructor | now rewrite app_nil_r].
  - cbn [fold_left].
    destruct (rewrite_sentence_rewritten limit cleaned s0) as (outs & Hr & ->).
    destruct (IH (cleaned ++ outs)) as (outss & Hall & ->).
    exists (outs :: outss). split; [now constructor |].
    cbn [List.concat]. now rewrite app_assoc.
Qed.

(** When the split triggers for no candidate, each candidate that is not
    blank gives one sentence. *)
Lemma rewritten_intact (limit : Z) (sentences : list str) (outss : list (list str)) :
  Forall2 (rewritten limit) sentences outss ->
  (forall cand, In cand sentences -> ~ split_triggers limit cand) ->
  Forall2 emitted_intact
    (filter (fun cand => negb (is_empty (strip cand))) sentences)
    (List.concat outss).
Proof.
  induction 1 as [| cand outs l outss Hr Hall IH]; intros Hno; [constructor |].
  cbn [filter List.concat].
  assert (IH' := IH (fun c Hc => Hno c (or_intror Hc))).
  destruct Hr as [[E ->] | [(Hne & _ & out & Hout & ->) | [Ht _]]].
  - now rewrite E.
  - destruct (strip cand); [congruence |]. cbn [is_empty negb app].
    now constructor.
  - exfalso. apply (Hno cand); [now left | exact Ht].
Qed.

Lemma rewrite_sentences_intact (self : EmailSimplifier) (text : str) :
  (forall cand, In cand (re_split sentence_re text) ->
                ~ split_triggers (sentence_length_limit self) cand) ->
  exists outs,
    Forall2 emitted_intact (solid_candidates text) outs /\
    _rewrite_sentences self text = join (chars " ") outs.
Proof.
  intros Hno. unfold _rewrite_sentences, solid_candidates.
  destruct (fold_rewrite_rewritten (sentence_length_limit self)
              (re_split sentence_re text) []) as (outss & Hall & ->).
  exists (List.concat outss). split; [| reflexivity].
  now apply (rewritten_intact (sentence_length_limit self)).
Qed.

(** C5: in the sentence rewrite the split of a candidate triggers only when
    its whitespace-delimited word count is strictly above the
    [sentence_length_limit] of the engine and it holds a comma.  The result
    of the pass is the candidates' sentences joined by one space, where a
    blank candidate gives none, a candidate for which the split triggers
    gives two, and any other candidate is emitted intact: as it is between
    its outer whitespace when its last character is [.], [!] or [?], and
    with a [.] appended when it is not.  So a text in which no candidate is
    both over the limit and with a comma comes out candidate by candidate
    intact, and so does a text without any comma whatever the limit.  With
    limit 3, ["This sentence has no commas at all"] yields that sentence
    with a period appended; ["Is it over now?"] stays as it is; the three
    words ["a, b c"] are not split; the four words ["a, b c d"] are. *)
Theorem long_sentence_without_comma_kept :
  (forall (self : EmailSimplifier) (text : str),
      exists outss,
        Forall2 (rewritten (sentence_length_limit self))
          (re_split sentence_re text) outss /\
        _rewrite_sentences self text = join (chars " ") (List.concat outss)) /\
  (forall (self : EmailSimplifier) (text : str),
      (forall cand, In cand (re_split sentence_re text) ->
                    ~ split_triggers (sentence_length_limit self) cand) ->
      exists outs,
        Forall2 emitted_intact (solid_candidates text) outs /\
        _rewrite_sentences self text = join (chars " ") outs) /\
  (forall (self : EmailSimplifier) (text : str),
      contains "," text = false ->
      exists outs,
        Forall2 emitted_intact (solid_candidates text) outs /\
        _rewrite_sentences self text = join (chars " ") outs) /\
  (forall (limit : Z) (cleaned : list str) (s0 : str),
      strip s0 <> [] -> ~ split_triggers limit s0 ->
      exists out,
        emitted_intact s0 out /\
        rewrite_sentence limit cleaned s0 = cleaned ++ [out]) /\
  simplify_text (limit_only 3) (chars "This sentence has no commas at all")
  = Ok (chars "This sentence has no commas at all.") /\
  simplify_text (limit_only 3) (chars "Is it over now?")
  = Ok (chars "Is it over now?") /\
  simplify_text (limit_only 3) (chars "a, b c") = Ok (chars "a, b c.") /\
  simplify_text (limit_only 3) (chars "a, b c d") = Ok (chars "a. b c d.").
Proof.
  split; [| split; [| split; [| split]]].
  - intros self text. unfold _rewrite_sentences.
    destruct (fold_rewrite_rewritten (sentence_length_limit self)
                (re_split sentence_re text) []) as (outss & Hall & ->).
    now exists outss.
  - apply rewrite_sentences_intact.
  - intros self text Hc. apply rewrite_sentences_intact.
    intros cand Hin [_ H].
    pose proof (split_scan_free "," sentence_re text 0 None Hc) as Hfree.
    rewrite Forall_forall in Hfree. specialize (Hfree cand Hin).
    apply (contains_strip "," cand) in Hfree. congruence.
  - intros limit cleaned s0 Hne Hno.
    destruct (rewrite_sentence_rewritten limit cleaned s0) as (outs & Hr & ->).
    destruct Hr as [[E _] | [(_ & _ & out & Hout & ->) | [Ht _]]];
      [congruence | now exists out | contradiction].
  - repeat split; vm_compute; reflexivity.
Qed.

(** Three words with a comma, limit 3: the candidate is over no limit and
    is not split. *)
Lemma long_sentence_without_comma_kept_witness :
  exists outs,
    Forall2 emitted_intact (solid_candidates (chars "a, b c")) outs /\
    _rewrite_sentences (limit_only 3) (chars "a, b c") = join (chars " ") outs.
Proof.
  apply (proj1 (proj2 long_sentence_without_comma_kept) (limit_only 3)
           (chars "a, b c")).
  intros cand Hin. vm_compute in Hin. destruct Hin as [<- | []].
  intros [H _]. vm_compute in H. discriminate H.
Defined.
